(** * aionevents: the event emitter, its registries and its dispatch loops

    A shallow embedding of [event.ts] and [event-emitter.ts] (both variants
    of the emitter, which differ only in the static [Fire] helper) together
    with the properties of registration, removal, wiring and dispatch.

    JavaScript objects live in an explicit store: emitters and parameter
    objects are referred to by reference, event arrays are re-read from the
    store at every loop iteration, and every callback invocation is
    appended to a trace.  The two collections of an emitter are object
    literals: a hook name is looked up among their own properties first and
    on [Object.prototype] next.  The record of an emitter holds the
    collections that emitter owns; the functions users register are
    observers, which are called, may write to the argument they are handed,
    and do not call back into an emitter. *)

From Stdlib Require Import ZArith String List Lia.
From stdpp Require Import base option list gmap strings fin_maps.

(** ** Values and references *)

Definition EmitterRef := nat.
Definition ObjRef := nat.

(** Property values of a parameter object: primitives, or a reference to
    another object (which a shallow copy shares). *)
Inductive Value :=
| VNum (z : Z)
| VStr (s : string)
| VRef (r : ObjRef).

(** [Record<string, any>] *)
Abbreviation Obj := (gmap string Value).

(** The invocation context handed to [Function.prototype.call]: an emitter
    instance, or the [EventEmitter] class itself, which is what [this]
    denotes inside a static method. *)
Inductive ThisVal :=
| ThisEmitter (r : EmitterRef)
| ThisClass.

(** [EventCallback].  A user function is known by its reference [f]; the
    closure [oneTimeCallback] built by [Once] carries the identity [id] it
    was allocated with and the two variables it captures; [CbNull] and
    [CbUndefined] are the two values a callback field holds when there is
    no function, which [===] tells apart. *)
Inductive Callback :=
| CbNull
| CbUndefined
| CbUser (f : nat)
| CbOneTime (id : nat) (eventName : string) (callback : Callback).

(** [!cb]: there is no function to call. *)
Definition nullish (cb : Callback) : bool :=
  match cb with
  | CbNull | CbUndefined => true
  | _ => false
  end.

(** [class Event] *)
Record Event := mkEvent {
  name : string;
  callback : Callback;
  source : EmitterRef;
  params : Obj
}.

(** [type Events = { [hook: string]: Event[] }] *)
Abbreviation Events := (gmap string (list Event)).

(** [class EventEmitter]: the three fields of a constructed instance. *)
Record EventEmitter := mkEmitter {
  instanceEvents : Events;
  classEvents : Events;
  wiredEmitters : list EmitterRef
}.

#[global] Instance Value_eq_dec : EqDecision Value.
Proof. solve_decision. Defined.

#[global] Instance ThisVal_eq_dec : EqDecision ThisVal.
Proof. solve_decision. Defined.

#[global] Instance Callback_eq_dec : EqDecision Callback.
Proof. solve_decision. Defined.

#[global] Instance Event_eq_dec : EqDecision Event.
Proof. solve_decision. Defined.

(** ** The store and the trace *)

(** One function call observed during dispatch: the function entered, its
    [this], the reference of the argument object, the contents of that
    object on entry, and whether the call was made by a dispatch loop
    ([true]) or by a one-time wrapper forwarding to the function it wraps
    ([false]). *)
Record Invocation := mkInvocation {
  inv_callback : Callback;
  inv_this : ThisVal;
  inv_arg : ObjRef;
  inv_seen : Obj;
  inv_direct : bool
}.

Record State := mkState {
  emitters : EmitterRef -> EventEmitter;
  objects : ObjRef -> Obj;
  next_obj : nat;
  next_closure : nat;
  trace : list Invocation
}.

Definition upd {A} (r : nat) (a : A) (h : nat -> A) : nat -> A :=
  fun r' => if Nat.eqb r' r then a else h r'.

Definition set_emitter (r : EmitterRef) (em : EventEmitter) (σ : State) : State :=
  mkState (upd r em (emitters σ)) (objects σ) (next_obj σ) (next_closure σ) (trace σ).

Definition set_instanceEvents (r : EmitterRef) (ie : Events) (σ : State) : State :=
  let em := emitters σ r in
  set_emitter r (mkEmitter ie (classEvents em) (wiredEmitters em)) σ.

Definition set_classEvents (r : EmitterRef) (ce : Events) (σ : State) : State :=
  let em := emitters σ r in
  set_emitter r (mkEmitter (instanceEvents em) ce (wiredEmitters em)) σ.

Definition set_wiredEmitters (r : EmitterRef) (ws : list EmitterRef) (σ : State) : State :=
  let em := emitters σ r in
  set_emitter r (mkEmitter (instanceEvents em) (classEvents em) ws) σ.

(** ** Computations: state, [TypeError], and loop fuel *)

Inductive Outcome (A : Type) :=
| Returned (a : A) (σ : State)
| TypeError (σ : State)
| OutOfFuel.
Arguments Returned {A} a σ.
Arguments TypeError {A} σ.
Arguments OutOfFuel {A}.

Definition M (A : Type) : Type := State -> Outcome A.

Definition ret {A} (a : A) : M A := fun σ => Returned a σ.

Definition throw {A} : M A := fun σ => TypeError σ.

Definition bind {A B} (c : M A) (k : A -> M B) : M B := fun σ =>
  match c σ with
  | Returned a σ' => k a σ'
  | TypeError σ' => TypeError σ'
  | OutOfFuel => OutOfFuel
  end.

Notation "'do' x <- c ; k" := (bind c (fun x => k))
  (at level 10, x name, c at level 100, k at level 200).
Notation "c ;; k" := (bind c (fun _ => k))
  (at level 100, k at level 200, right associativity).

(** The state an outcome ends in, when there is one. *)
Definition final {A} (o : Outcome A) : option State :=
  match o with
  | Returned _ σ => Some σ
  | TypeError σ => Some σ
  | OutOfFuel => None
  end.

(** ** Hook names and [Object.prototype] *)

(** The members of [Object.prototype], which every object literal
    inherits.  Each is a function, listed with its [length], except
    [__proto__], an accessor that returns the prototype object, which has
    no [length]. *)
Definition Object_prototype : list (string * option nat) :=
  [("constructor", Some 1); ("hasOwnProperty", Some 1); ("isPrototypeOf", Some 1);
   ("propertyIsEnumerable", Some 1); ("toLocaleString", Some 0); ("toString", Some 0);
   ("valueOf", Some 0); ("__defineGetter__", Some 2); ("__defineSetter__", Some 2);
   ("__lookupGetter__", Some 1); ("__lookupSetter__", Some 1); ("__proto__", None)].

(** What [coll[name]] finds when [name] is not an own property of the
    object literal [coll]: a member of [Object.prototype], given by its
    [length], or nothing. *)
Definition inherited (name : string) : option (option nat) :=
  (list_to_map Object_prototype : gmap string (option nat)) !! name.
Arguments inherited : simpl never.

(** A [length] used as a loop bound: [e < undefined] is false for every
    [e]. *)
Definition member_length (len : option nat) : nat := default 0 len.

(** ** Registration *)

(** [arr.push(event)] on the array under [event.name], a new array when
    the name was not an own property. *)
Definition pushed (event : Event) (evs : Events) : Events :=
  let evs' := match evs !! name event with
              | None => <[name event := []]> evs
              | Some _ => evs
              end in
  <[name event := default [] (evs' !! name event) ++ [event]]> evs'.

(** [target.xEvents[event.name] ??= []; target.xEvents[event.name].push(event)].
    Under a name that is not an own property and is found on
    [Object.prototype], [??=] assigns nothing and the member found has no
    [push]: the second statement is a [TypeError] ([None]). *)
Definition push_event (event : Event) (evs : Events) : option Events :=
  match evs !! name event with
  | Some _ => Some (pushed event evs)
  | None =>
    match inherited (name event) with
    | Some _ => None
    | None => Some (pushed event evs)
    end
  end.

(** [EventEmitter.registerEvent].  The fields of a constructed emitter are
    always defined, so the two [??= {}] on them assign nothing.  The
    collection written is the one in the record of [target]: an emitter
    is taken to own the collections it registers into. *)
Definition registerEvent (target : EmitterRef) (event : Event) (isClassEvent : bool) : M unit :=
  fun σ =>
    if isClassEvent then
      match push_event event (classEvents (emitters σ target)) with
      | Some ce => Returned tt (set_classEvents target ce σ)
      | None => TypeError σ
      end
    else
      match push_event event (instanceEvents (emitters σ target)) with
      | Some ie => Returned tt (set_instanceEvents target ie σ)
      | None => TypeError σ
      end.

(** [EventEmitter.On] *)
Definition On (eventName : string) (callback : Callback) (target : EmitterRef)
    (classDefined : bool) : M EmitterRef :=
  let event := mkEvent eventName callback target ∅ in
  registerEvent target event classDefined ;;
  ret target.

(** [EventEmitter.prototype.on] *)
Definition on (this : EmitterRef) (eventName : string) (callback : Callback) : M EmitterRef :=
  On eventName callback this false ;;
  ret this.

(** Allocation of the closure [oneTimeCallback]. *)
Definition new_closure (eventName : string) (callback : Callback) : M Callback := fun σ =>
  Returned (CbOneTime (next_closure σ) eventName callback)
    (mkState (emitters σ) (objects σ) (next_obj σ) (S (next_closure σ)) (trace σ)).

(** [EventEmitter.Once] *)
Definition Once (eventName : string) (callback : Callback) (target : EmitterRef)
    (classDefined : bool) : M EmitterRef :=
  do oneTimeCallback <- new_closure eventName callback;
  let event := mkEvent eventName oneTimeCallback target ∅ in
  registerEvent target event classDefined ;;
  ret target.

(** [EventEmitter.prototype.once] *)
Definition once (this : EmitterRef) (eventName : string) (callback : Callback) : M EmitterRef :=
  Once eventName callback this false ;;
  ret this.

(** [EventEmitter.prototype.wire] *)
Definition wire (this : EmitterRef) (eventable : EmitterRef) : M EmitterRef := fun σ =>
  Returned this (set_wiredEmitters this (wiredEmitters (emitters σ this) ++ [eventable]) σ).

(** ** Removal *)

(** [Array.prototype.find] with the predicate of [off]:
    [(event) => event.callback === callback]. *)
Definition find_callback (cb : Callback) (evs : list Event) : option Event :=
  snd <$> list_find (fun event => callback event = cb) evs.

(** [Array.prototype.indexOf]: the first position holding the element, or
    [-1]. *)
Definition indexOf (ev : Event) (evs : list Event) : Z :=
  match list_find (fun x => x = ev) evs with
  | Some (i, _) => Z.of_nat i
  | None => (-1)%Z
  end.

(** [Array.prototype.splice(start, 1)]: a negative [start] counts from the
    end, a [start] past the end removes nothing. *)
Definition splice1 (start : Z) (evs : list Event) : list Event :=
  let len := Z.of_nat (length evs) in
  let from := if (start <? 0)%Z then Z.max (len + start) 0 else Z.min start len in
  delete (Z.to_nat from) evs.

(** [EventEmitter.prototype.off].  The guard lets a member inherited from
    [Object.prototype] through, and that member has no [find]. *)
Definition off (this : EmitterRef) (eventName : string) (cb : Callback) : M EmitterRef :=
  fun σ =>
    match instanceEvents (emitters σ this) !! eventName with
    | None =>
      match inherited eventName with
      | Some _ => TypeError σ
      | None => Returned this σ
      end
    | Some evs =>
      match find_callback cb evs with
      | None => Returned this σ
      | Some eventToDelete =>
        let index := indexOf eventToDelete evs in
        Returned this
          (set_instanceEvents this
             (<[eventName := splice1 index evs]> (instanceEvents (emitters σ this))) σ)
      end
    end.

(** ** The [events] getter *)

(** Object spread into a literal under construction: the own properties of
    [src] are copied over what [acc] already holds. *)
Definition spread_into {V} (acc src : gmap string V) : gmap string V := src ∪ acc.

(** [get events() { return { ...this.instanceEvents, ...this.classEvents } }] *)
Definition events (em : EventEmitter) : Events :=
  spread_into (spread_into ∅ (instanceEvents em)) (classEvents em).

(** ** Construction *)

(** What [this] holds when the constructor body starts: either collection
    may already be there (class-level registration runs before any
    instance exists) or be [undefined].  A collection that is there is
    the one of the prototype; the record of the new instance takes its
    contents.  The class collection is only read from then on.  An
    instance collection found here would stay shared with the prototype,
    so the properties of construction are stated for
    [pre_instanceEvents = None], where the instance gets a collection of
    its own. *)
Record PreEmitter := mkPre {
  pre_instanceEvents : option Events;
  pre_classEvents : option Events
}.

(** [for (let e = 0; e < len; e++) this.on(hook, events[e].callback)] over
    the array [events], which [on] never touches. *)
Fixpoint replay_events (this : EmitterRef) (hook : string) (evs : list Event) : M unit :=
  match evs with
  | [] => ret tt
  | ev :: evs' => on this hook (callback ev) ;; replay_events this hook evs'
  end.

(** [for (const [hook, events] of Object.entries(this.classEvents))].
    [Object.entries] lists the hooks in insertion order and [map_to_list]
    in another; the registrations under different hooks do not interfere,
    and the properties of construction are stated for class collections
    under which no registration throws. *)
Fixpoint replay_entries (this : EmitterRef) (entries : list (string * list Event)) : M unit :=
  match entries with
  | [] => ret tt
  | (hook, evs) :: rest => replay_events this hook evs ;; replay_entries this rest
  end.

(** [constructor()] run on the fresh object [this]. *)
Definition constructor (this : EmitterRef) (pre : PreEmitter) : M EmitterRef := fun σ =>
  let ie := default ∅ (pre_instanceEvents pre) in      (* this.instanceEvents ??= {} *)
  let ce := default ∅ (pre_classEvents pre) in         (* this.classEvents ??= {} *)
  let σ1 := set_emitter this (mkEmitter ie ce []) σ in (* this.wiredEmitters = [] *)
  (replay_entries this (map_to_list (classEvents (emitters σ1 this))) ;;
   ret this) σ1.

(** ** Dispatch *)

Section Dispatch.

(** What each user function does to the contents of the argument object it
    is called with.  User functions are observers: they are recorded in
    the trace and may write to their own argument, and they do not call
    back into an emitter. *)
Variable user_body : nat -> Obj -> Obj.

(** The object literal [{ ...params }]: a fresh object holding the own
    properties of [params]. *)
Definition spread_params (params : ObjRef) : M ObjRef := fun σ =>
  let r := next_obj σ in
  Returned r
    (mkState (emitters σ) (upd r (spread_into ∅ (objects σ params)) (objects σ))
       (S r) (next_closure σ) (trace σ)).

Definition log_call (cb : Callback) (this : ThisVal) (arg : ObjRef) (direct : bool) : M unit :=
  fun σ =>
    Returned tt
      (mkState (emitters σ) (objects σ) (next_obj σ) (next_closure σ)
         (trace σ ++ [mkInvocation cb this arg (objects σ arg) direct])).

Definition run_user (f : nat) (arg : ObjRef) : M unit := fun σ =>
  Returned tt
    (mkState (emitters σ) (upd arg (user_body f (objects σ arg)) (objects σ))
       (next_obj σ) (next_closure σ) (trace σ)).

(** [cb.call(this, arg)].  For the closure of [Once] this is its body:
    [callback.call(this, ...args); this.off(eventName, oneTimeCallback)];
    the class has no static [off], so with the class as [this] the second
    statement is a [TypeError]. *)
Fixpoint call_callback (cb : Callback) (this : ThisVal) (arg : ObjRef) (direct : bool) : M unit :=
  match cb with
  | CbNull | CbUndefined => throw
  | CbUser f => log_call cb this arg direct ;; run_user f arg
  | CbOneTime _ eventName callback =>
      log_call cb this arg direct ;;
      call_callback callback this arg false ;;
      match this with
      | ThisEmitter r => off r eventName cb ;; ret tt
      | ThisClass => throw
      end
  end.

(** One loop body [owner.instanceEvents[eventName][e].callback.call(this,
    { ...params })], with or without the guard
    [if (!....callback) continue] in front of it.  Every index is read from
    the store again.  When the name is not an own property, what is found
    (nothing, or a member of [Object.prototype]) has no element at [e], and
    reading [callback] from it is a [TypeError], as it is past the end of
    an array. *)
Definition dispatch_at (owner : EmitterRef) (this : ThisVal) (guard : bool)
    (eventName : string) (params : ObjRef) (e : nat) : M unit := fun σ =>
  match instanceEvents (emitters σ owner) !! eventName with
  | None => TypeError σ
  | Some evs =>
    match evs !! e with
    | None => TypeError σ
    | Some ev =>
      match callback ev with
      | CbNull | CbUndefined => if guard then Returned tt σ else TypeError σ
      | cb => (do arg <- spread_params params; call_callback cb this arg true) σ
      end
    end
  end.

(** [for (let e = first; e < len; e++) body(e)] with [len] read once before
    the loop; [n] is the number of iterations left. *)
Fixpoint for_len (n : nat) (e : nat) (body : nat -> M unit) : M unit :=
  match n with
  | 0 => ret tt
  | S n' => body e ;; for_len n' (S e) body
  end.

(** [for (let e = first; e < bound(); e++) body(e)] with the bound read from
    the store before every iteration. *)
Fixpoint for_dyn (fuel : nat) (e : nat) (bound : State -> option nat)
    (body : nat -> M unit) : M unit :=
  match fuel with
  | 0 => fun _ => OutOfFuel
  | S fuel' => fun σ =>
    match bound σ with
    | None => TypeError σ
    | Some n =>
      if e <? n then (body e ;; for_dyn fuel' (S e) bound body) σ
      else Returned tt σ
    end
  end.

(** [owner.instanceEvents[eventName].length] as a loop bound: the length
    of the own array, else the one of the member inherited from
    [Object.prototype]; [None] when nothing is found under the name, which
    is also the one case where [owner.instanceEvents[eventName]] is
    falsy. *)
Definition events_length (owner : EmitterRef) (eventName : string) (σ : State) : option nat :=
  match instanceEvents (emitters σ owner) !! eventName with
  | Some evs => Some (length evs)
  | None => member_length <$> inherited eventName
  end.

Definition wired_length (this : EmitterRef) (σ : State) : option nat :=
  Some (length (wiredEmitters (emitters σ this))).

(** [this.wiredEmitters[w].instanceEvents[eventName].length] *)
Definition wired_events_length (this : EmitterRef) (w : nat) (eventName : string)
    (σ : State) : option nat :=
  match wiredEmitters (emitters σ this) !! w with
  | Some wired => events_length wired eventName σ
  | None => None
  end.

(** A loop body on the sequence of [this.wiredEmitters[w]], whose callbacks
    get that emitter as [this]; the emitter too is read from the store
    again. *)
Definition dispatch_wired_at (this : EmitterRef) (w : nat) (guard : bool)
    (eventName : string) (params : ObjRef) (e : nat) : M unit := fun σ =>
  match wiredEmitters (emitters σ this) !! w with
  | Some wired => dispatch_at wired (ThisEmitter wired) guard eventName params e σ
  | None => TypeError σ
  end.

(** First loop of [fire]: [len] is read once. *)
Definition fire_local (this : EmitterRef) (eventName : string) (params : ObjRef) : M unit :=
  fun σ =>
    match events_length this eventName σ with
    | Some len =>
        for_len len 0 (dispatch_at this (ThisEmitter this) false eventName params) σ
    | None => Returned tt σ
    end.

(** Body of the loop of [fire] over [this.wiredEmitters]: skip the emitter
    when it has no sequence, else loop over the sequence with the bound
    read before every iteration and the guard on the callback. *)
Definition fire_wired_at (this : EmitterRef) (eventName : string) (params : ObjRef)
    (w : nat) : M unit := fun σ =>
  match wiredEmitters (emitters σ this) !! w with
  | None => TypeError σ
  | Some wired =>
    match events_length wired eventName σ with
    | None => Returned tt σ
    | Some len =>
        for_dyn (S len) 0 (wired_events_length this w eventName)
          (dispatch_wired_at this w true eventName params) σ
    end
  end.

Definition fire_wired (this : EmitterRef) (eventName : string) (params : ObjRef) : M unit :=
  fun σ =>
    for_dyn (S (length (wiredEmitters (emitters σ this)))) 0 (wired_length this)
      (fire_wired_at this eventName params) σ.

(** [EventEmitter.prototype.fire] *)
Definition fire (this : EmitterRef) (eventName : string) (params : ObjRef) : M EmitterRef :=
  fire_local this eventName params ;;
  fire_wired this eventName params ;;
  ret this.

(** [fire] called without its second argument: [params = {}]. *)
Definition fire_default (this : EmitterRef) (eventName : string) : M EmitterRef := fun σ =>
  let r := next_obj σ in
  fire this eventName r
    (mkState (emitters σ) (upd r ∅ (objects σ)) (S r) (next_closure σ) (trace σ)).

(** Static [EventEmitter.Fire], first variant: both bounds are read before
    every iteration, the callbacks of [target] get the class as [this], no
    callback is guarded, and nothing is returned. *)
Definition Fire_wired_at (target : EmitterRef) (eventName : string) (params : ObjRef)
    (w : nat) : M unit := fun σ =>
  match wiredEmitters (emitters σ target) !! w with
  | None => TypeError σ
  | Some wired =>
    match events_length wired eventName σ with
    | None => Returned tt σ
    | Some len =>
        for_dyn (S len) 0 (wired_events_length target w eventName)
          (dispatch_wired_at target w false eventName params) σ
    end
  end.

Definition Fire (eventName : string) (target : EmitterRef) (params : ObjRef) : M unit :=
  (fun σ =>
     match events_length target eventName σ with
     | Some len =>
         for_dyn (S len) 0 (events_length target eventName)
           (dispatch_at target ThisClass false eventName params) σ
     | None => Returned tt σ
     end) ;;
  (fun σ =>
     for_dyn (S (length (wiredEmitters (emitters σ target)))) 0 (wired_length target)
       (Fire_wired_at target eventName params) σ).

(** Static [EventEmitter.Fire], second variant: every length is read once,
    and the loop over the wired emitters is bounded by
    [target._instanceEvents[eventName].length]. *)
Definition Fire2_wired_at (target : EmitterRef) (eventName : string) (params : ObjRef)
    (w : nat) : M unit := fun σ =>
  match wiredEmitters (emitters σ target) !! w with
  | None => TypeError σ
  | Some wired =>
    match events_length wired eventName σ with
    | None => Returned tt σ
    | Some len =>
        for_len len 0 (dispatch_wired_at target w false eventName params) σ
    end
  end.

Definition Fire2 (eventName : string) (target : EmitterRef) (params : ObjRef) : M unit :=
  (fun σ =>
     match events_length target eventName σ with
     | Some targetLen =>
         for_len targetLen 0 (dispatch_at target ThisClass false eventName params) σ
     | None => Returned tt σ
     end) ;;
  (fun σ =>
     match events_length target eventName σ with
     | None => TypeError σ
     | Some wiredLen => for_len wiredLen 0 (Fire2_wired_at target eventName params) σ
     end).

End Dispatch.

(** ** A concrete store for the examples *)

Definition empty_emitter : EventEmitter := mkEmitter ∅ ∅ [].

(** Every reference denotes an emitter as [new EventEmitter()] leaves it
    when nothing was registered on its class; object 0 is [{ n: 5 }]. *)
Definition init : State :=
  mkState (fun _ => empty_emitter) (upd 0 {["n" := VNum 5]} (fun _ => ∅)) 1 0 [].

(** A user function that stamps its argument. *)
Definition stamp (f : nat) (o : Obj) : Obj := <["seen" := VNum (Z.of_nat f)]> o.

(** Run a computation and continue with the store it leaves, whether it
    returned or threw (the caller catches the exception). *)
Definition after {A} (c : M A) (σ : State) : State := default σ (final (c σ)).

Definition calls_of (cb : Callback) (σ : State) : nat :=
  length (filter (fun inv => inv_callback inv = cb) (trace σ)).

(** [EventEmitter.On('x', f1, e0, true); e0.on('x', f2)] *)
Definition both_scopes : State :=
  after (on 0 "x" (CbUser 2)) (after (On "x" (CbUser 1) 0 true) init).

(** [e0.on('x', f1).on('x', f2).on('x', f1)] *)
Definition three_listeners : State :=
  after (on 0 "x" (CbUser 1)) (after (on 0 "x" (CbUser 2)) (after (on 0 "x" (CbUser 1)) init)).

(** Four emitters, each listening to 'x' with its own function:
    [e0.wire(e1); e1.wire(e2); e3.wire(e0)]. *)
Definition wiring_scene : State :=
  let σ := after (on 0 "x" (CbUser 10)) init in
  let σ := after (on 1 "x" (CbUser 11)) σ in
  let σ := after (on 2 "x" (CbUser 12)) σ in
  let σ := after (on 3 "x" (CbUser 13)) σ in
  let σ := after (wire 0 1) σ in
  let σ := after (wire 1 2) σ in
  after (wire 3 0) σ.

(** [e1.on('x', f1).on('x', null).on('x', f2)], with [e0.wire(e1)]. *)
Definition null_scene : State :=
  let σ := after (on 1 "x" (CbUser 1)) init in
  let σ := after (on 1 "x" CbNull) σ in
  let σ := after (on 1 "x" (CbUser 2)) σ in
  after (wire 0 1) σ.

(** A class decorated with [@On('x')] on [f1] and [@Once('y')] on [f2]:
    the decorators register on the prototype (reference 9) with
    [classDefined = true]. *)
Definition decorated_class : Events :=
  classEvents
    (emitters (after (Once "y" (CbUser 2) 9 true) (after (On "x" (CbUser 1) 9 true) init)) 9).

(** [e1.once('x', f10).once('x', f11).once('x', f12).once('x', f7)] and
    [e0.wire(e1)]. *)
Definition once_queue : State :=
  let σ := after (once 1 "x" (CbUser 10)) init in
  let σ := after (once 1 "x" (CbUser 11)) σ in
  let σ := after (once 1 "x" (CbUser 12)) σ in
  let σ := after (once 1 "x" (CbUser 7)) σ in
  after (wire 0 1) σ.

(** [e0.on('x', f1)] *)
Definition one_listener : State := after (on 0 "x" (CbUser 1)) init.

(** [e0.once('x', f1)] *)
Definition one_once : State := after (once 0 "x" (CbUser 1)) init.

(** [e0.once('x', f1).on('x', f2); e1.on('x', f3); e0.wire(e1)] *)
Definition once_then_listeners : State :=
  let σ := after (once 0 "x" (CbUser 1)) init in
  let σ := after (on 0 "x" (CbUser 2)) σ in
  let σ := after (on 1 "x" (CbUser 3)) σ in
  after (wire 0 1) σ.

(** [e0.once('x', f1).on('x', f2).on('x', f3)] *)
Definition once_first_of_three : State :=
  let σ := after (once 0 "x" (CbUser 1)) init in
  let σ := after (on 0 "x" (CbUser 2)) σ in
  after (on 0 "x" (CbUser 3)) σ.

(** The scenarios of the repository's test file; the counter a test
    increments is the number of calls of its handler [f1]. *)
Definition test_fire : State :=
  let σ := after (wire 0 1) init in
  let σ := after (on 1 "test" (CbUser 1)) σ in
  after (fire stamp 0 "test" 0) σ.

Definition test_on : State :=
  let σ := after (wire 0 2) init in
  let σ := after (wire 1 2) σ in
  let σ := after (on 2 "test" (CbUser 1)) σ in
  let σ := after (fire stamp 0 "test" 0) σ in
  after (fire stamp 1 "test" 0) σ.

Definition test_once : State :=
  let σ := after (wire 0 1) init in
  let σ := after (once 1 "test" (CbUser 1)) σ in
  let σ := after (fire stamp 0 "test" 0) σ in
  after (fire stamp 0 "test" 0) σ.

Definition test_off : State :=
  let σ := after (wire 0 1) init in
  let σ := after (once 1 "test" (CbUser 1)) σ in
  let σ := after (fire stamp 0 "test" 0) σ in
  let σ := after (off 1 "test" (CbUser 1)) σ in
  after (fire stamp 0 "test" 0) σ.

(** ** Specification vocabulary *)

(** The sequence registered under a hook, empty when there is none. *)
Definition events_at (σ : State) (r : EmitterRef) (hook : string) : list Event :=
  default [] (instanceEvents (emitters σ r) !! hook).

(** The Event [this.on(hook, ev.callback)] creates. *)
Definition replayed (this : EmitterRef) (hook : string) (ev : Event) : Event :=
  mkEvent hook (callback ev) this ∅.

(** The functions entered when [cb] is called: [cb] itself and, for a
    one-time wrapper, the functions it forwards to. *)
Fixpoint cb_chain (cb : Callback) : list Callback :=
  match cb with
  | CbOneTime _ _ inner => cb :: cb_chain inner
  | _ => [cb]
  end.

(** The trace entries one call of [cb] leaves. *)
Fixpoint chain_log (cb : Callback) (this : ThisVal) (arg : ObjRef) (direct : bool)
    (seen : Obj) : list Invocation :=
  match cb with
  | CbNull | CbUndefined => []
  | CbUser _ => [mkInvocation cb this arg seen direct]
  | CbOneTime _ _ inner =>
      mkInvocation cb this arg seen direct :: chain_log inner this arg false seen
  end.

(** Who was called, and with which [this]. *)
Definition who (inv : Invocation) : ThisVal * Callback := (inv_this inv, inv_callback inv).

(** The calls made by the dispatch loops themselves. *)
Definition direct_calls (log : list Invocation) : list Invocation :=
  filter (fun inv => inv_direct inv = true) log.

Definition is_user (cb : Callback) : bool :=
  match cb with CbUser _ => true | _ => false end.

(** The calls of user functions, whether a loop or a one-time wrapper made
    them. *)
Definition user_calls (log : list Invocation) : list Invocation :=
  filter (fun inv => is_user (inv_callback inv) = true) log.

(** The calls a loop over [evs] makes when it reaches every Event that has a
    callback. *)
Definition expected (this : ThisVal) (evs : list Event) : list (ThisVal * Callback) :=
  (fun ev => (this, callback ev)) <$> filter (fun ev => nullish (callback ev) = false) evs.

(** [shrinks σ σ']: from [σ] to [σ'] no emitter gained a hook, an Event, a
    class-scoped entry or a wire; instance sequences may have lost Events,
    keeping the order of the rest. *)
Definition shrinks (σ σ' : State) : Prop :=
  ∀ r,
    classEvents (emitters σ' r) = classEvents (emitters σ r) ∧
    wiredEmitters (emitters σ' r) = wiredEmitters (emitters σ r) ∧
    ∀ hook, option_Forall2 (fun l l' => l' `sublist_of` l)
              (instanceEvents (emitters σ r) !! hook)
              (instanceEvents (emitters σ' r) !! hook).

(** What a call with context [this] and argument [arg] may do to the
    store: remove Events of the emitter [this], append [log] to the trace,
    write to the object [arg]. *)
Definition effect (this : ThisVal) (arg : ObjRef) (log : list Invocation)
    (σ σ' : State) : Prop :=
  shrinks σ σ' ∧
  (∀ r, ThisEmitter r ≠ this → emitters σ' r = emitters σ r) ∧
  trace σ' = trace σ ++ log ∧
  next_obj σ' = next_obj σ ∧
  next_closure σ' = next_closure σ ∧
  ∀ x, x ≠ arg → objects σ' x = objects σ x.

(** What one loop body that reaches a callback [cb] does: it allocates the
    argument object and calls [cb] on it. *)
Definition dispatched (this : ThisVal) (params : ObjRef) (cb : Callback)
    (σ σ' : State) : Prop :=
  shrinks σ σ' ∧
  (∀ r, ThisEmitter r ≠ this → emitters σ' r = emitters σ r) ∧
  trace σ' = trace σ ++ chain_log cb this (next_obj σ) true (objects σ params) ∧
  next_obj σ' = S (next_obj σ) ∧
  next_closure σ' = next_closure σ ∧
  ∀ x, x ≠ next_obj σ → objects σ' x = objects σ x.



Definition copy_inv (σ0 : State) (params : ObjRef) (σ : State) : Prop :=
  next_obj σ0 ≤ next_obj σ ∧
  (∀ x, x < next_obj σ0 → objects σ x = objects σ0 x) ∧
  ∃ log, trace σ = trace σ0 ++ log ∧
    Forall (fun inv => next_obj σ0 ≤ inv_arg inv < next_obj σ ∧
                       inv_seen inv = objects σ0 params) log ∧
    NoDup (inv_arg <$> direct_calls log) ∧
    NoDup (inv_arg <$> user_calls log).

(** Events a loop passes without touching any emitter: those whose callback
    is a user function and, where the loop has the guard, those without a
    callback. *)
Definition quiet_event (guard : bool) (ev : Event) : Prop :=
  match callback ev with
  | CbUser _ => True
  | CbNull | CbUndefined => guard = true
  | CbOneTime _ _ _ => False
  end.

(** From [σ] to [σ'] exactly [calls] were made, and no emitter changed. *)
Definition logged (calls : list (ThisVal * Callback)) (σ σ' : State) : Prop :=
  emitters σ' = emitters σ ∧ who <$> trace σ' = (who <$> trace σ) ++ calls.

(** The calls the second loop of [fire] makes over the wired emitters [ws]
    when it reaches every Event that has a callback. *)
Definition wired_calls (σ : State) (hook : string) (ws : list EmitterRef) :
    list (ThisVal * Callback) :=
  concat ((fun W => expected (ThisEmitter W) (events_at σ W hook)) <$> ws).

(** The sequence under [hook] after the constructor replayed the class
    sequence [evs] onto what was there. *)
Definition replay_seq (this : EmitterRef) (hook : string) (old : option (list Event))
    (evs : list Event) : option (list Event) :=
  match evs with
  | [] => old
  | _ => Some (default [] old ++ (replayed this hook <$> evs))
  end.

(** From [σ] to [σ'] only instance sequences of [this] changed. *)
Definition registers_only (this : EmitterRef) (σ σ' : State) : Prop :=
  classEvents (emitters σ' this) = classEvents (emitters σ this) ∧
  wiredEmitters (emitters σ' this) = wiredEmitters (emitters σ this) ∧
  (∀ r, r ≠ this → emitters σ' r = emitters σ r) ∧
  objects σ' = objects σ ∧ trace σ' = trace σ.

(** Total-correctness triples: from a store in [P] the computation ends,
    in [Q] when it returns and in [E] when it throws. *)
Definition triple {A} (P : State → Prop) (c : M A) (Q E : State → Prop) : Prop :=
  ∀ σ, P σ →
    match c σ with
    | Returned _ σ' => Q σ'
    | TypeError σ' => E σ'
    | OutOfFuel => False
    end.

(** ** The decorators of [event-decorators.ts] *)

(** What the decorators [@On(hook)] and [@Once(hook)] do when the class
    body is evaluated: [target] is the prototype of the class and [value]
    the decorated method; both register class-scoped. *)
Module Decorators.

Definition On (hook : string) (value : Callback) (target : EmitterRef) : M unit :=
  On hook value target true ;; ret tt.

Definition Once (hook : string) (value : Callback) (target : EmitterRef) : M unit :=
  Once hook value target true ;; ret tt.

End Decorators.

(** ** Vocabulary for the further properties *)

(** A collection as [registerEvent] builds it: none of its hook names is
    a member of [Object.prototype]. *)
Definition own_names (evs : Events) : Prop :=
  map_Forall (fun hook _ => inherited hook = None) evs.

(** Two stores that differ at most in what [classEvents] hold. *)
Definition same_dispatch_view (σ1 σ2 : State) : Prop :=
  (∀ r, instanceEvents (emitters σ1 r) = instanceEvents (emitters σ2 r) ∧
        wiredEmitters (emitters σ1 r) = wiredEmitters (emitters σ2 r)) ∧
  objects σ1 = objects σ2 ∧ next_obj σ1 = next_obj σ2 ∧
  next_closure σ1 = next_closure σ2 ∧ trace σ1 = trace σ2.

(** Two outcomes of the same kind, with the same value, in stores that
    differ at most in what [classEvents] hold. *)
Definition same_outcome {A} (o1 o2 : Outcome A) : Prop :=
  match o1, o2 with
  | Returned a1 σ1, Returned a2 σ2 => a1 = a2 ∧ same_dispatch_view σ1 σ2
  | TypeError σ1, TypeError σ2 => same_dispatch_view σ1 σ2
  | OutOfFuel, OutOfFuel => True
  | _, _ => False
  end.

(** A computation that does not read [classEvents]. *)
Definition class_blind {A} (c : M A) : Prop :=
  ∀ σ1 σ2, same_dispatch_view σ1 σ2 → same_outcome (c σ1) (c σ2).


(** [e0.on('x', f1).off('x', f1)]: the hook is registered, with no
    listener left. *)
Definition emptied_hook : State := after (off 0 "x" (CbUser 1)) one_listener.



(** * Properties *)

(** ** Elementary facts about the store *)

Lemma upd_same {A} r (a : A) h : upd r a h r = a.
Proof. unfold upd. by rewrite Nat.eqb_refl. Qed.

Lemma upd_other {A} r r' (a : A) h : r' ≠ r → upd r a h r' = h r'.
Proof. intros Hne. unfold upd. by destruct (Nat.eqb_spec r' r). Qed.

Lemma pushed_lookup event (evs : Events) hook :
  pushed event evs !! hook =
  if decide (hook = name event) then Some (default [] (evs !! hook) ++ [event]) else evs !! hook.
Proof.
  unfold pushed. case_decide as Heq.
  - subst hook. rewrite lookup_insert_eq.
    destruct (evs !! name event) eqn:E; [by rewrite E|by rewrite lookup_insert_eq].
  - rewrite lookup_insert_ne by done.
    destruct (evs !! name event); [done|by rewrite lookup_insert_ne].
Qed.

(** ** Registration appends *)

Lemma push_event_plain event (evs : Events) :
  inherited (name event) = None → push_event event evs = Some (pushed event evs).
Proof. intros Hname. unfold push_event. rewrite Hname. by destruct (evs !! name event). Qed.

Lemma push_event_inherited event (evs : Events) :
  evs !! name event = None → is_Some (inherited (name event)) → push_event event evs = None.
Proof. intros Hnone [len Hlen]. unfold push_event. by rewrite Hnone, Hlen. Qed.

Lemma on_unfold this hook cb σ :
  inherited hook = None →
  on this hook cb σ =
    Returned this
      (set_instanceEvents this
         (pushed (mkEvent hook cb this ∅) (instanceEvents (emitters σ this))) σ).
Proof.
  intros Hname. unfold on, On, bind, registerEvent, ret.
  by rewrite push_event_plain.
Qed.

Lemma once_unfold this hook cb σ :
  inherited hook = None →
  once this hook cb σ =
    Returned this
      (set_instanceEvents this
         (pushed (mkEvent hook (CbOneTime (next_closure σ) hook cb) this ∅)
            (instanceEvents (emitters σ this)))
         (mkState (emitters σ) (objects σ) (next_obj σ) (S (next_closure σ)) (trace σ))).
Proof.
  intros Hname. unfold once, Once, bind, new_closure, registerEvent, ret. simpl.
  by rewrite push_event_plain.
Qed.

(** Registration under a name found on [Object.prototype] and not yet an
    own property throws and registers nothing. *)
Lemma on_inherited this hook cb σ :
  instanceEvents (emitters σ this) !! hook = None → is_Some (inherited hook) →
  on this hook cb σ = TypeError σ.
Proof.
  intros Hnone Hname. unfold on, On, bind, registerEvent, ret.
  by rewrite push_event_inherited.
Qed.

Lemma events_at_push σ σ0 this ev hook :
  emitters σ0 = emitters σ →
  events_at
    (set_instanceEvents this (pushed ev (instanceEvents (emitters σ this))) σ0)
    this hook =
  if decide (hook = name ev) then events_at σ this hook ++ [ev] else events_at σ this hook.
Proof.
  intros Heq. unfold events_at, set_instanceEvents. simpl.
  rewrite upd_same. simpl. rewrite pushed_lookup. by case_decide.
Qed.

(** ** Lengths read as loop bounds *)

Lemma events_length_own σ r hook evs :
  instanceEvents (emitters σ r) !! hook = Some evs →
  events_length r hook σ = Some (length evs).
Proof. intros Hseq. unfold events_length. by rewrite Hseq. Qed.

Lemma events_length_none σ r hook :
  instanceEvents (emitters σ r) !! hook = None → inherited hook = None →
  events_length r hook σ = None.
Proof. intros Hseq Hname. unfold events_length. by rewrite Hseq, Hname. Qed.

(** ** The [events] getter *)

Lemma spread_into_empty {V} (m : gmap string V) : spread_into ∅ m = m.
Proof. unfold spread_into. apply (right_id_L ∅ (∪)). Qed.

(** What the getter returns: a mapping whose hook names are those of
    [instanceEvents] and of [classEvents] together; under a hook name
    present in both it holds the sequence of [classEvents], and the
    sequence of [instanceEvents] shows only where the class has none. *)
Theorem events_class_over_instance (em : EventEmitter) (hook : string) :
  dom (events em) = dom (instanceEvents em) ∪ dom (classEvents em) ∧
  events em !! hook =
    match classEvents em !! hook with
    | Some class_seq => Some class_seq
    | None => instanceEvents em !! hook
    end.
Proof.
  unfold events. rewrite spread_into_empty. unfold spread_into. split.
  - rewrite dom_union_L. apply (comm_L (∪)).
  - rewrite lookup_union. by destruct (classEvents em !! hook), (instanceEvents em !! hook).
Qed.

(** C1, the failing input: after a class-scoped and an instance-scoped
    registration under the same hook, both collections hold a sequence for
    it and the getter does not return the one of [instanceEvents]: the
    instance-defined Event is missing from what is documented as all the
    events, instance defined and class defined. *)
Lemma events_instance_precedence_fails :
  let em := emitters both_scopes 0 in
  instanceEvents em !! "x" = Some [mkEvent "x" (CbUser 2) 0 ∅] ∧
  classEvents em !! "x" = Some [mkEvent "x" (CbUser 1) 0 ∅] ∧
  events em !! "x" ≠ instanceEvents em !! "x".
Proof. vm_compute. repeat split; discriminate. Qed.

(** ** [off] *)

Lemma find_callback_first cb (l1 l2 : list Event) ev :
  callback ev = cb → Forall (fun x => callback x ≠ cb) l1 →
  find_callback cb (l1 ++ ev :: l2) = Some ev.
Proof.
  intros Hev Hl1. unfold find_callback.
  induction Hl1 as [|x l1 Hx _ IH]; simpl.
  - by rewrite decide_True.
  - rewrite decide_False by done.
    destruct (list_find _ (l1 ++ ev :: l2)) as [[i y]|]; simpl in *; congruence.
Qed.

Lemma find_callback_none cb (evs : list Event) :
  Forall (fun x => callback x ≠ cb) evs → find_callback cb evs = None.
Proof.
  intros Hall. unfold find_callback.
  induction Hall as [|x l Hx _ IH]; simpl; [done|].
  rewrite decide_False by done.
  destruct (list_find _ l) as [[i y]|]; simpl in *; congruence.
Qed.

Lemma indexOf_first (l1 l2 : list Event) ev :
  ev ∉ l1 → indexOf ev (l1 ++ ev :: l2) = Z.of_nat (length l1).
Proof.
  intros Hnot. unfold indexOf.
  induction l1 as [|x l1 IH]; simpl.
  - by rewrite decide_True.
  - apply not_elem_of_cons in Hnot as [Hne Hnot].
    rewrite decide_False by done.
    specialize (IH Hnot).
    destruct (list_find _ (l1 ++ ev :: l2)) as [[i y]|]; simpl in *; lia.
Qed.

Lemma splice1_middle (l1 l2 : list Event) ev :
  splice1 (Z.of_nat (length l1)) (l1 ++ ev :: l2) = l1 ++ l2.
Proof.
  unfold splice1.
  assert ((Z.of_nat (length l1) <? 0)%Z = false) as -> by (apply Z.ltb_ge; lia).
  rewrite length_app. simpl.
  rewrite Z.min_l by lia. rewrite Nat2Z.id.
  induction l1; simpl; [done|by f_equal].
Qed.

(** What a successful removal does: [off] on a sequence whose first Event
    with the given callback is [ev]. *)
Lemma off_removes σ this hook cb l1 ev l2 :
  instanceEvents (emitters σ this) !! hook = Some (l1 ++ ev :: l2) →
  callback ev = cb → Forall (fun x => callback x ≠ cb) l1 →
  off this hook cb σ =
    Returned this
      (set_instanceEvents this (<[hook := l1 ++ l2]> (instanceEvents (emitters σ this))) σ).
Proof.
  intros Hseq Hev Hl1. unfold off. rewrite Hseq.
  rewrite (find_callback_first cb l1 l2 ev) by done.
  rewrite indexOf_first, splice1_middle; [done|].
  intros Hin. rewrite Forall_forall in Hl1. by apply (Hl1 ev).
Qed.

Lemma off_noop σ this hook cb :
  (instanceEvents (emitters σ this) !! hook = None ∧ inherited hook = None ∨
   ∃ evs, instanceEvents (emitters σ this) !! hook = Some evs ∧
          Forall (fun x => callback x ≠ cb) evs) →
  off this hook cb σ = Returned this σ.
Proof.
  intros [[Hnone Hname]|(evs & Hseq & Hall)]; unfold off.
  - by rewrite Hnone, Hname.
  - by rewrite Hseq, find_callback_none.
Qed.

(** Under a name found on [Object.prototype] and not an own property,
    [off] throws. *)
Lemma off_inherited σ this hook cb :
  instanceEvents (emitters σ this) !! hook = None → is_Some (inherited hook) →
  off this hook cb σ = TypeError σ.
Proof. intros Hnone [len Hlen]. unfold off. by rewrite Hnone, Hlen. Qed.

(** A sequence either has a first Event with the callback or has none. *)
Lemma first_with_callback cb (evs : list Event) :
  Forall (fun x => callback x ≠ cb) evs ∨
  ∃ l1 ev l2, evs = l1 ++ ev :: l2 ∧ callback ev = cb ∧
              Forall (fun x => callback x ≠ cb) l1.
Proof.
  induction evs as [|x evs IH]; [by left|].
  destruct (decide (callback x = cb)) as [Heq|Hne].
  - right. exists (@nil Event). exists x. exists evs. repeat split; [done|constructor].
  - destruct IH as [Hall|(l1 & ev & l2 & -> & Hev & Hl1)].
    + left. by constructor.
    + right. exists (x :: l1), ev, l2. repeat split; [done|by constructor].
Qed.

(** X17: under a hook name that is not a member of [Object.prototype],
    [e.off(hook, cb)] returns [e]; when the sequence under [hook] has a
    first Event whose callback is [cb] it removes exactly that Event; when
    there is no sequence under [hook] or none of its Events has the
    callback the store is left as it was; in every case the class-scoped
    collections, the wiring, the other emitters, the objects and the trace
    stay as they are, and the outcome does not depend on what
    [classEvents] hold. *)
Theorem off_removes_first_match (σ : State) (this : EmitterRef) (hook : string)
    (cb : Callback) :
  inherited hook = None →
  ∃ σ',
    off this hook cb σ = Returned this σ' ∧
    (∀ l1 ev l2,
        instanceEvents (emitters σ this) !! hook = Some (l1 ++ ev :: l2) →
        callback ev = cb → Forall (fun x => callback x ≠ cb) l1 →
        instanceEvents (emitters σ' this) =
          <[hook := l1 ++ l2]> (instanceEvents (emitters σ this))) ∧
    ((instanceEvents (emitters σ this) !! hook = None ∨
      ∃ evs, instanceEvents (emitters σ this) !! hook = Some evs ∧
             Forall (fun x => callback x ≠ cb) evs) → σ' = σ) ∧
    (∀ r, classEvents (emitters σ' r) = classEvents (emitters σ r) ∧
          wiredEmitters (emitters σ' r) = wiredEmitters (emitters σ r) ∧
          (r ≠ this → emitters σ' r = emitters σ r)) ∧
    objects σ' = objects σ ∧ trace σ' = trace σ ∧
    (∀ σ2, (∀ r, instanceEvents (emitters σ2 r) = instanceEvents (emitters σ r)) →
       ∃ σ2', off this hook cb σ2 = Returned this σ2' ∧
              ∀ r, instanceEvents (emitters σ2' r) = instanceEvents (emitters σ' r)).
Proof.
  intros Hname.
  destruct (instanceEvents (emitters σ this) !! hook) as [evs|] eqn:Hseq.
  - destruct (first_with_callback cb evs) as [Hall|(l1 & ev & l2 & -> & Hev & Hl1)].
    + exists σ. split; [apply off_noop; eauto|].
      split; [|split; [done|split; [done|split; [done|split; [done|]]]]].
      * intros k1 ev k2 [= ->] Hev _. exfalso.
        rewrite Forall_forall in Hall. apply (Hall ev); [|done].
        apply elem_of_app. right. by left.
      * intros σ2 H2. exists σ2. split; [|done].
        apply off_noop. right. exists evs. by rewrite H2.
    + exists (set_instanceEvents this
                (<[hook := l1 ++ l2]> (instanceEvents (emitters σ this))) σ).
      split; [by apply (off_removes σ this hook cb l1 ev l2)|].
      split; [|split; [|split; [|split; [done|split; [done|]]]]].
      * intros k1 ev' k2 [= Heq] Hev' Hk1. simpl. rewrite upd_same. simpl.
        f_equal.
        assert (length l1 = length k1) as Hlen.
        { destruct (Nat.lt_total (length l1) (length k1)) as [Hlt|[Heql|Hlt]]; [|done|].
          - exfalso. rewrite Forall_forall in Hk1. apply (Hk1 ev); [|done].
            apply list_elem_of_lookup. exists (length l1).
            rewrite <- (lookup_app_l k1 (ev' :: k2)) by done.
            rewrite <- Heq. by rewrite list_lookup_middle.
          - exfalso. rewrite Forall_forall in Hl1. apply (Hl1 ev'); [|done].
            apply list_elem_of_lookup. exists (length k1).
            rewrite <- (lookup_app_l l1 (ev :: l2)) by done.
            rewrite Heq. by rewrite list_lookup_middle. }
        apply app_inj_1 in Heq as [-> [= -> ->]]; done.
      * intros [Hnone|(evs & [= <-] & Hall)]; [done|]. exfalso.
        rewrite Forall_forall in Hall. apply (Hall ev); [|done].
        apply elem_of_app. right. by left.
      * intros r. simpl. unfold upd. destruct (Nat.eqb_spec r this) as [->|Hne]; done.
      * intros σ2 H2. eexists. split; [apply (off_removes σ2 this hook cb l1 ev l2); [by rewrite H2|done|done]|].
        intros r. simpl. unfold upd. rewrite H2.
        destruct (Nat.eqb_spec r this) as [->|Hne]; [done|apply H2].
  - exists σ. split; [apply off_noop; eauto|].
    split; [done|split; [done|split; [done|split; [done|split; [done|]]]]].
    intros σ2 H2. exists σ2. split; [|done]. apply off_noop. left. by rewrite H2.
Qed.

(** X17 at [e0] with listeners [f1; f2; f1]: removing [f1] takes the first
    one out, removing [f9] changes nothing. *)
Lemma off_removes_first_match_witness :
  (∃ σ', off 0 "x" (CbUser 1) three_listeners = Returned 0 σ' ∧
         instanceEvents (emitters σ' 0) !! "x" =
           Some [mkEvent "x" (CbUser 2) 0 ∅; mkEvent "x" (CbUser 1) 0 ∅]) ∧
  off 0 "x" (CbUser 9) three_listeners = Returned 0 three_listeners.
Proof.
  split.
  - destruct (off_removes_first_match three_listeners 0 "x" (CbUser 1))
      as (σ' & Hret & Hrm & _); [by vm_compute|].
    exists σ'. split; [exact Hret|].
    rewrite (Hrm [] (mkEvent "x" (CbUser 1) 0 ∅)
               [mkEvent "x" (CbUser 2) 0 ∅; mkEvent "x" (CbUser 1) 0 ∅]);
      [by rewrite lookup_insert_eq|by vm_compute|reflexivity|constructor].
  - destruct (off_removes_first_match three_listeners 0 "x" (CbUser 9))
      as (σ' & Hret & _ & Hnoop & _); [by vm_compute|].
    rewrite Hret. f_equal. apply Hnoop. right.
    eexists. split; [by vm_compute|].
    repeat constructor; discriminate.
Defined.

(** C4, the failing input: no sequence is registered under 'toString' or
    'constructor' on a new emitter, and [off] under these names does not
    return the emitter: the guard of [off] finds the member the object
    literal inherits from [Object.prototype], and the call of [find] on it
    is a [TypeError].  Under a name that is nowhere, [off] is the no-op. *)
Theorem off_throws_on_inherited_name :
  instanceEvents (emitters init 0) !! "toString" = None ∧
  instanceEvents (emitters init 0) !! "constructor" = None ∧
  off 0 "toString" (CbUser 1) init = TypeError init ∧
  off 0 "constructor" (CbUser 1) init = TypeError init ∧
  off 0 "x" (CbUser 1) init = Returned 0 init.
Proof. by vm_compute. Qed.

(** ** Construction *)

Lemma registers_only_refl this σ : registers_only this σ σ.
Proof. by repeat split. Qed.

Lemma registers_only_trans this σ1 σ2 σ3 :
  registers_only this σ1 σ2 → registers_only this σ2 σ3 → registers_only this σ1 σ3.
Proof.
  intros (Hc1 & Hw1 & Hr1 & Ho1 & Ht1) (Hc2 & Hw2 & Hr2 & Ho2 & Ht2).
  split; [congruence|split; [congruence|split; [|split; congruence]]].
  intros r Hr. rewrite Hr2, Hr1; auto.
Qed.

Lemma replay_events_spec this hook evs :
  inherited hook = None →
  ∀ σ, ∃ σ',
    replay_events this hook evs σ = Returned tt σ' ∧ registers_only this σ σ' ∧
    ∀ h, instanceEvents (emitters σ' this) !! h =
         if decide (h = hook)
         then replay_seq this hook (instanceEvents (emitters σ this) !! h) evs
         else instanceEvents (emitters σ this) !! h.
Proof.
  intros Hname. induction evs as [|ev evs IH]; intros σ.
  - exists σ. split; [done|split; [apply registers_only_refl|]].
    intros h. by case_decide.
  - simpl. unfold bind at 1. rewrite on_unfold by done.
    set (σ1 := set_instanceEvents _ _ _).
    destruct (IH σ1) as (σ' & Hrun & Hreg & Hlook).
    exists σ'. split; [done|split].
    + eapply registers_only_trans; [|exact Hreg].
      unfold registers_only, σ1. simpl. rewrite upd_same. simpl.
      split; [done|split; [done|split; [|done]]]. intros r Hr. by apply upd_other.
    + intros h. rewrite Hlook. unfold σ1. simpl. rewrite upd_same. simpl.
      rewrite pushed_lookup. simpl.
      case_decide as Hh; [|done]. subst h. unfold replay_seq, replayed.
      destruct evs; simpl; [done|]. by rewrite <- app_assoc.
Qed.

Lemma replay_entries_spec this entries :
  NoDup entries.*1 → Forall (fun entry => inherited entry.1 = None) entries →
  ∀ σ, ∃ σ',
    replay_entries this entries σ = Returned tt σ' ∧ registers_only this σ σ' ∧
    ∀ h, instanceEvents (emitters σ' this) !! h =
         match (list_to_map entries : Events) !! h with
         | Some evs => replay_seq this h (instanceEvents (emitters σ this) !! h) evs
         | None => instanceEvents (emitters σ this) !! h
         end.
Proof.
  induction entries as [|[hook evs] rest IH]; intros Hnd Hnames σ.
  - exists σ. split; [done|split; [apply registers_only_refl|done]].
  - apply NoDup_cons in Hnd as [Hfresh Hnd]. apply Forall_cons in Hnames as [Hname Hnames].
    simpl. unfold bind at 1.
    destruct (replay_events_spec this hook evs Hname σ) as (σ1 & -> & Hreg1 & Hlook1).
    destruct (IH Hnd Hnames σ1) as (σ' & Hrun & Hreg & Hlook).
    exists σ'. split; [done|split; [by eapply registers_only_trans|]].
    intros h. rewrite Hlook, Hlook1.
    destruct (decide (h = hook)) as [->|Hne].
    + rewrite lookup_insert_eq.
      by rewrite (not_elem_of_list_to_map_1 (M := gmap string) rest hook Hfresh).
    + by rewrite lookup_insert_ne.
Qed.

Lemma own_names_entries (ce : Events) :
  own_names ce → Forall (fun entry => inherited entry.1 = None) (map_to_list ce).
Proof.
  intros Hce. apply Forall_forall. intros [hook evs] Hin.
  apply elem_of_map_to_list in Hin. simpl. by apply (Hce hook evs).
Qed.



(** The constructor on an object that has no instance collection yet, with
    the class collection [ce] on its prototype. *)
Lemma constructor_fresh this ce σ :
  own_names ce →
  ∃ σ',
    constructor this (mkPre None (Some ce)) σ = Returned this σ' ∧
    (∀ h, instanceEvents (emitters σ' this) !! h =
          replay_seq this h None (default [] (ce !! h))) ∧
    wiredEmitters (emitters σ' this) = [] ∧
    classEvents (emitters σ' this) = ce ∧
    (∀ r, r ≠ this → emitters σ' r = emitters σ r) ∧
    objects σ' = objects σ ∧ trace σ' = trace σ.
Proof.
  intros Hce.
  set (σ1 := set_emitter this (mkEmitter ∅ ce []) σ).
  assert (emitters σ1 this = mkEmitter ∅ ce []) as Hthis by apply upd_same.
  destruct (replay_entries_spec this (map_to_list ce) (NoDup_fst_map_to_list ce)
              (own_names_entries ce Hce) σ1)
    as (σ' & Hrun & (Hc & Hw & Hr & Ho & Ht) & Hlook).
  rewrite list_to_map_to_list, Hthis in Hlook. rewrite Hthis in Hc, Hw.
  simpl in Hlook, Hc, Hw.
  exists σ'. split.
  { change (constructor this (mkPre None (Some ce)) σ)
      with ((replay_entries this (map_to_list (classEvents (emitters σ1 this))) ;;
             ret this) σ1).
    rewrite Hthis. unfold bind, ret. simpl. by rewrite Hrun. }
  split; [|split; [done|split; [done|split; [|done]]]].
  - intros h. rewrite Hlook, lookup_empty. by destruct (ce !! h).
  - intros r Hne. rewrite (Hr r Hne). unfold σ1. simpl. by apply upd_other.
Qed.

Lemma replay_seq_events_at σ this h evs :
  instanceEvents (emitters σ this) !! h = replay_seq this h None evs →
  events_at σ this h = replayed this h <$> evs.
Proof. intros Hl. unfold events_at. rewrite Hl. by destruct evs. Qed.

(** C7: on an object that has no instance collection yet, and with a class
    collection as registration builds it, the constructor returns its
    object with [classEvents] as it found them and no wire.  Under every
    hook of [classEvents] the instance sequence holds one Event per
    class-level Event: same callback, same order, the new instance as
    source.  Each of these Events is an ordinary registration: [off] with
    its callback takes the first Event with that callback out.  Hooks
    absent from [classEvents] have no sequence, and every other emitter,
    the objects and the trace are left alone. *)
Theorem constructor_replays_class_events (σ : State) (this : EmitterRef)
    (pre : PreEmitter) :
  pre_instanceEvents pre = None →
  own_names (default ∅ (pre_classEvents pre)) →
  ∃ σ',
    constructor this pre σ = Returned this σ' ∧
    classEvents (emitters σ' this) = default ∅ (pre_classEvents pre) ∧
    wiredEmitters (emitters σ' this) = [] ∧
    (∀ hook evs, default ∅ (pre_classEvents pre) !! hook = Some evs →
       events_at σ' this hook = replayed this hook <$> evs ∧
       callback <$> events_at σ' this hook = callback <$> evs ∧
       (∀ ev, ev ∈ evs →
          ∃ σ'' l1 x l2,
            off this hook (callback ev) σ' = Returned this σ'' ∧
            events_at σ' this hook = l1 ++ x :: l2 ∧ callback x = callback ev ∧
            Forall (fun y => callback y ≠ callback ev) l1 ∧
            events_at σ'' this hook = l1 ++ l2 ∧
            ∀ h, h ≠ hook → events_at σ'' this h = events_at σ' this h)) ∧
    (∀ hook, default ∅ (pre_classEvents pre) !! hook = None →
       instanceEvents (emitters σ' this) !! hook = None) ∧
    (∀ r, r ≠ this → emitters σ' r = emitters σ r) ∧
    objects σ' = objects σ ∧ trace σ' = trace σ.
Proof.
  intros Hpre Hce. set (ce := default ∅ (pre_classEvents pre)) in *.
  assert (constructor this pre σ = constructor this (mkPre None (Some ce)) σ) as ->.
  { destruct pre as [ie [ce'|]]; simpl in Hpre; subst ie; [done|].
    unfold constructor. simpl. done. }
  destruct (constructor_fresh this ce σ Hce) as (σ' & Hret & Hlook & Hw & Hc & Hr & Ho & Ht).
  assert (∀ hook evs, ce !! hook = Some evs →
            events_at σ' this hook = replayed this hook <$> evs) as Hat.
  { intros hook evs Hh. apply replay_seq_events_at. by rewrite Hlook, Hh. }
  exists σ'. split; [done|split; [done|split; [done|split; [|split; [|done]]]]].
  - intros hook evs Hh. split; [by apply Hat|]. split.
    { rewrite (Hat hook evs Hh), <- list_fmap_compose. done. }
    intros ev Hev.
    destruct (first_with_callback (callback ev) (events_at σ' this hook))
      as [Hall|(l1 & x & l2 & Hsplit & Hx & Hl1)].
    + exfalso. rewrite (Hat hook evs Hh), Forall_forall in Hall.
      apply (Hall (replayed this hook ev)); [|done].
      by apply list_elem_of_fmap_2.
    + assert (instanceEvents (emitters σ' this) !! hook = Some (l1 ++ x :: l2)) as Hseq.
      { unfold events_at in Hsplit.
        destruct (instanceEvents (emitters σ' this) !! hook); simpl in *; [by subst|].
        by destruct l1. }
      eexists _, l1, x, l2.
      split; [by apply (off_removes σ' this hook (callback ev) l1 x l2)|].
      split; [done|split; [done|split; [done|split]]].
      * unfold events_at. simpl. rewrite upd_same. simpl. by rewrite lookup_insert_eq.
      * intros h Hne. unfold events_at. simpl. rewrite upd_same. simpl.
        by rewrite lookup_insert_ne.
  - intros hook Hh. by rewrite Hlook, Hh.
Qed.

(** C7 on the decorated class: a fresh instance gets one Event under 'x'
    and one under 'y', with the callbacks of the class. *)
Lemma constructor_replays_class_events_witness :
  ∃ σ', constructor 0 (mkPre None (Some decorated_class)) init = Returned 0 σ' ∧
        events_at σ' 0 "x" = [mkEvent "x" (CbUser 1) 0 ∅] ∧
        events_at σ' 0 "y" = [mkEvent "y" (CbOneTime 0 "y" (CbUser 2)) 0 ∅] ∧
        ∃ σ'', off 0 "x" (CbUser 1) σ' = Returned 0 σ'' ∧ events_at σ'' 0 "x" = [].
Proof.
  destruct (constructor_replays_class_events init 0 (mkPre None (Some decorated_class)))
    as (σ' & Hret & _ & _ & Hhooks & _);
    [reflexivity|apply map_Forall_to_list; vm_compute; repeat constructor|].
  exists σ'. split; [exact Hret|].
  destruct (Hhooks "x" [mkEvent "x" (CbUser 1) 9 ∅]) as (Hx & _ & Hoff); [by vm_compute|].
  destruct (Hhooks "y" [mkEvent "y" (CbOneTime 0 "y" (CbUser 2)) 9 ∅]) as (Hy & _ & _);
    [by vm_compute|].
  split; [exact Hx|split; [exact Hy|]].
  destruct (Hoff (mkEvent "x" (CbUser 1) 9 ∅))
    as (σ'' & l1 & x & l2 & Hoff1 & Hsplit & _ & _ & Hres & _); [by left|].
  exists σ''. split; [exact Hoff1|].
  rewrite Hx in Hsplit. rewrite Hres.
  destruct l1 as [|y l1]; [by injection Hsplit as _ <-|].
  destruct l1; discriminate Hsplit.
Defined.

(** ** Reasoning rules for computations *)

Lemma triple_ret {A} (a : A) (P E : State → Prop) : triple P (ret a) P E.
Proof. intros σ HP. exact HP. Qed.

Lemma triple_bind {A B} (c : M A) (k : A → M B) (P Q R E : State → Prop) :
  triple P c Q E → (∀ a, triple Q (k a) R E) → triple P (bind c k) R E.
Proof.
  intros Hc Hk σ HP. unfold bind. specialize (Hc σ HP).
  destruct (c σ) as [a σ1| |]; [by apply Hk|done|done].
Qed.

Lemma triple_consequence {A} (c : M A) (P P' Q Q' E E' : State → Prop) :
  triple P c Q E → (∀ σ, P' σ → P σ) → (∀ σ, Q σ → Q' σ) → (∀ σ, E σ → E' σ) →
  triple P' c Q' E'.
Proof.
  intros Hc HP HQ HE σ HP'. specialize (Hc σ (HP σ HP')).
  destruct (c σ); auto.
Qed.

Lemma triple_conj {A} (c : M A) (P1 P2 Q1 Q2 E1 E2 : State → Prop) :
  triple P1 c Q1 E1 → triple P2 c Q2 E2 →
  triple (fun σ => P1 σ ∧ P2 σ) c (fun σ => Q1 σ ∧ Q2 σ) (fun σ => E1 σ ∧ E2 σ).
Proof.
  intros H1 H2 σ [HP1 HP2]. specialize (H1 σ HP1). specialize (H2 σ HP2).
  destruct (c σ); auto.
Qed.

Lemma triple_ext {A} (c c' : M A) (P Q E : State → Prop) :
  (∀ σ, P σ → c σ = c' σ) → triple P c' Q E → triple P c Q E.
Proof. intros Heq Hc σ HP. rewrite (Heq σ HP). by apply Hc. Qed.

Lemma triple_for_dyn_ext (I E : State → Prop) bound bound' body body' fuel e :
  (∀ σ, I σ → bound σ = bound' σ) → (∀ e σ, I σ → body e σ = body' e σ) →
  (∀ e, triple I (body' e) I E) →
  ∀ σ, I σ → for_dyn fuel e bound body σ = for_dyn fuel e bound' body' σ.
Proof.
  intros Hb Hbody Hinv. revert e. induction fuel as [|fuel IH]; intros e σ HI; [done|].
  simpl. rewrite (Hb σ HI). destruct (bound' σ) as [n|]; [|done].
  destruct (e <? n); [|done].
  unfold bind. rewrite (Hbody e σ HI).
  pose proof (Hinv e σ HI) as Hstep.
  destruct (body' e σ) as [[] σ1|σ1|]; [|done|done]. by apply IH.
Qed.

(** A loop whose length was read once: the invariant may depend on the
    index. *)
Lemma triple_for_len (I : nat → State → Prop) (E : State → Prop) body n :
  (∀ e, triple (I e) (body e) (I (S e)) E) →
  ∀ e, triple (I e) (for_len n e body) (I (n + e)) E.
Proof.
  intros Hbody. induction n as [|n IH]; intros e; simpl.
  - apply triple_ret.
  - eapply triple_bind; [apply Hbody|]. intros _.
    replace (S (n + e)) with (n + S e) by lia. apply IH.
Qed.

(** A loop whose bound is read before every iteration ends within its fuel
    when the invariant keeps the bound under [N]. *)
Lemma triple_for_dyn (I E : State → Prop) bound body N :
  (∀ e, triple I (body e) I E) →
  (∀ σ, I σ → bound σ = None → E σ) →
  (∀ σ n, I σ → bound σ = Some n → n ≤ N) →
  ∀ fuel e, e ≤ N → N < fuel + e → triple I (for_dyn fuel e bound body) I E.
Proof.
  intros Hbody Hnone Hle. induction fuel as [|fuel IH]; intros e He Hfuel σ HI.
  - lia.
  - simpl. destruct (bound σ) as [n|] eqn:Hb; [|by apply Hnone].
    destruct (Nat.ltb_spec e n) as [Hlt|Hge]; [|done].
    pose proof (Hle σ n HI Hb).
    assert (triple I (body e;; for_dyn fuel (S e) bound body) I E) as Hstep.
    { eapply triple_bind; [apply Hbody|]. intros _. apply IH; lia. }
    by apply Hstep.
Qed.

(** ** [shrinks] is a preorder *)

Lemma shrinks_refl σ : shrinks σ σ.
Proof.
  intros r. repeat split. intros hook.
  destruct (instanceEvents (emitters σ r) !! hook); by constructor.
Qed.

Lemma shrinks_trans σ1 σ2 σ3 : shrinks σ1 σ2 → shrinks σ2 σ3 → shrinks σ1 σ3.
Proof.
  intros H12 H23 r.
  destruct (H12 r) as (Hc12 & Hw12 & Hi12), (H23 r) as (Hc23 & Hw23 & Hi23).
  split; [congruence|split; [congruence|]]. intros hook.
  specialize (Hi12 hook). specialize (Hi23 hook).
  destruct Hi12 as [l1 l2 H1|]; inversion Hi23; subst; constructor.
  by etrans.
Qed.

Lemma shrinks_same_emitters σ σ' : emitters σ' = emitters σ → shrinks σ σ'.
Proof.
  intros Heq r. rewrite Heq. repeat split. intros hook.
  destruct (instanceEvents (emitters σ r) !! hook); by constructor.
Qed.


Lemma shrinks_events_length σ σ' r hook len n :
  shrinks σ σ' → events_length r hook σ = Some len → events_length r hook σ' = Some n →
  n ≤ len.
Proof.
  intros Hs. destruct (Hs r) as (_ & _ & Hi). specialize (Hi hook).
  unfold events_length. destruct Hi as [l l' Hsub|].
  - intros [= <-] [= <-]. by apply sublist_length.
  - intros H1 H2. rewrite H1 in H2. injection H2 as ->. lia.
Qed.

(** Split a goal [effect ...] or [dispatched ...] into its six parts. *)
Ltac split_effect :=
  unfold effect, dispatched; split; [|split; [|split; [|split; [|split]]]].

Lemma effect_refl this arg σ : effect this arg [] σ σ.
Proof. split_effect; auto using shrinks_refl, app_nil_r. Qed.

(** [off] ends, and only ever takes an Event out of a sequence of its
    receiver. *)
Lemma off_effect r hook cb σ :
  ∃ σ', final (off r hook cb σ) = Some σ' ∧ ∀ arg, effect (ThisEmitter r) arg [] σ σ'.
Proof.
  unfold off.
  destruct (instanceEvents (emitters σ r) !! hook) as [evs|] eqn:Hseq;
    [|destruct (inherited hook); exists σ; auto using effect_refl].
  destruct (find_callback cb evs) as [ev|]; [|exists σ; auto using effect_refl].
  eexists. split; [done|]. intros arg.
  unfold effect. simpl. rewrite app_nil_r.
  split; [|split; [|done]].
  - intros r'. simpl. unfold upd. destruct (Nat.eqb_spec r' r) as [->|Hne]; simpl.
    + repeat split. intros hook'. destruct (decide (hook = hook')) as [<-|Hne].
      * rewrite lookup_insert_eq, Hseq. constructor. unfold splice1. apply sublist_delete.
      * rewrite lookup_insert_ne by done.
        destruct (instanceEvents (emitters σ r) !! hook'); by constructor.
    + repeat split. intros hook'.
      destruct (instanceEvents (emitters σ r') !! hook'); by constructor.
  - intros r' Hne. apply upd_other. congruence.
Qed.

Lemma effect_trans this arg log1 log2 σ1 σ2 σ3 :
  effect this arg log1 σ1 σ2 → effect this arg log2 σ2 σ3 →
  effect this arg (log1 ++ log2) σ1 σ3.
Proof.
  intros (Hs1 & He1 & Ht1 & Ho1 & Hc1 & Hx1) (Hs2 & He2 & Ht2 & Ho2 & Hc2 & Hx2).
  split_effect.
  - by eapply shrinks_trans.
  - intros r Hr. rewrite He2, He1; auto.
  - by rewrite Ht2, Ht1, app_assoc.
  - congruence.
  - congruence.
  - intros x Hx. rewrite Hx2, Hx1; auto.
Qed.

(** ** The trace entries of one call *)

Lemma chain_log_entries cb this arg direct seen :
  Forall (fun inv => inv_this inv = this ∧ inv_arg inv = arg ∧ inv_seen inv = seen ∧
                     inv_callback inv ∈ cb_chain cb)
    (chain_log cb this arg direct seen).
Proof.
  revert direct. induction cb as [| |f|id nm inner IH]; intros direct; simpl.
  - constructor.
  - constructor.
  - repeat constructor.
  - constructor; [repeat split; by left|].
    eapply Forall_impl; [apply IH|]. simpl.
    intros inv (? & ? & ? & ?). repeat split; auto. by right.
Qed.

Lemma direct_calls_wrapped cb this arg seen :
  direct_calls (chain_log cb this arg false seen) = [].
Proof.
  unfold direct_calls. induction cb as [| |f|id nm inner IH]; simpl; [done|done|done|].
  rewrite filter_cons_False by (simpl; discriminate). exact IH.
Qed.

Lemma direct_calls_chain_log cb this arg seen :
  nullish cb = false →
  direct_calls (chain_log cb this arg true seen) = [mkInvocation cb this arg seen true].
Proof.
  intros Hcb. destruct cb as [| |f|id nm inner]; [done|done|done|].
  unfold direct_calls. simpl. rewrite filter_cons_True by done.
  f_equal. apply direct_calls_wrapped.
Qed.


Lemma user_calls_app l1 l2 : user_calls (l1 ++ l2) = user_calls l1 ++ user_calls l2.
Proof. apply filter_app. Qed.

(** One call reaches at most one user function. *)
Lemma user_calls_chain_log cb this arg direct seen :
  inv_arg <$> user_calls (chain_log cb this arg direct seen) = [] ∨
  inv_arg <$> user_calls (chain_log cb this arg direct seen) = [arg].
Proof.
  revert direct. unfold user_calls.
  induction cb as [| |f|id nm inner IH]; intros direct; simpl; [by left|by left|by right|].
  rewrite filter_cons_False by (simpl; discriminate). apply IH.
Qed.

(** Appending arguments allocated later keeps a list of arguments free of
    repetitions. *)
Lemma NoDup_args_app (P : Invocation → Prop) `{!∀ inv, Decision (P inv)} log new r :
  (∀ inv, inv ∈ log → inv_arg inv < r) →
  NoDup (inv_arg <$> filter P log) →
  inv_arg <$> filter P new = [] ∨ inv_arg <$> filter P new = [r] →
  NoDup (inv_arg <$> filter P (log ++ new)).
Proof.
  intros Hall Hnd Hnew. rewrite filter_app, fmap_app.
  destruct Hnew as [-> | ->]; [by rewrite app_nil_r|].
  apply NoDup_app. split; [done|split; [|apply NoDup_singleton]].
  intros x Hin Hx. apply list_elem_of_singleton in Hx. subst x.
  apply list_elem_of_fmap in Hin as (inv & Harg & Hinv).
  apply list_elem_of_filter in Hinv as [_ Hinv].
  specialize (Hall inv Hinv). lia.
Qed.



(** ** One call, one loop body *)

Section DispatchFacts.

Variable user_body : nat → Obj → Obj.

(** Calling a callback ends, returning or throwing, and either way it has
    logged its chain of functions and done nothing else than [effect]
    allows. *)
Lemma call_callback_effect cb this arg direct σ :
  ∃ σ', final (call_callback user_body cb this arg direct σ) = Some σ' ∧
        effect this arg (chain_log cb this arg direct (objects σ arg)) σ σ'.
Proof.
  revert direct σ. induction cb as [| |f|id nm inner IH]; intros direct σ.
  - exists σ. split; [done|]. simpl. apply effect_refl.
  - exists σ. split; [done|]. simpl. apply effect_refl.
  - eexists. split; [done|]. simpl.
    split_effect; simpl; auto.
    + by apply shrinks_same_emitters.
    + intros x Hx. by apply upd_other.
  - simpl. unfold bind at 1. simpl.
    set (σ1 := mkState _ _ _ _ _).
    assert (effect this arg [mkInvocation (CbOneTime id nm inner) this arg (objects σ arg) direct]
              σ σ1) as H1.
    { split_effect; simpl; auto. by apply shrinks_same_emitters. }
    destruct (IH false σ1) as (σ2 & Hout & H2).
    pose proof (effect_trans _ _ _ _ _ _ _ H1 H2) as H12. simpl in H12.
    unfold bind at 1.
    destruct (call_callback user_body inner this arg false σ1) as [[] σ2'| σ2' |];
      simpl in Hout; [| |done]; injection Hout as ->;
      [|exists σ2; split; [done|exact H12]].
    destruct this as [r|]; [|exists σ2; split; [done|exact H12]].
    destruct (off_effect r nm (CbOneTime id nm inner) σ2) as (σ3 & Hoff & H3).
    exists σ3. split.
    { unfold bind, ret.
      by destruct (off r nm (CbOneTime id nm inner) σ2) as [a τ|τ|]. }
    specialize (H3 arg).
    pose proof (effect_trans _ _ _ _ _ _ _ H12 H3) as H13.
    by rewrite app_nil_r in H13.
Qed.

Lemma dispatch_at_effect owner this guard hook params e σ :
  ∃ σ',
    final (dispatch_at user_body owner this guard hook params e σ) = Some σ' ∧
    (σ' = σ ∨
     ∃ evs ev,
       instanceEvents (emitters σ owner) !! hook = Some evs ∧ evs !! e = Some ev ∧
       nullish (callback ev) = false ∧ dispatched this params (callback ev) σ σ').
Proof.
  unfold dispatch_at.
  destruct (instanceEvents (emitters σ owner) !! hook) as [evs|] eqn:Hseq;
    [|exists σ; split; [done|by left]].
  destruct (evs !! e) as [ev|] eqn:Hev; [|exists σ; split; [done|by left]].
  destruct (nullish (callback ev)) eqn:Hnn.
  { exists σ. destruct (callback ev); try discriminate Hnn; destruct guard; split; auto. }
  set (σ1 := mkState (emitters σ)
               (upd (next_obj σ) (spread_into ∅ (objects σ params)) (objects σ))
               (S (next_obj σ)) (next_closure σ) (trace σ)).
  destruct (call_callback_effect (callback ev) this (next_obj σ) true σ1)
    as (σ' & Hout & Hs & He & Ht & Ho & Hc & Hx).
  assert (objects σ1 (next_obj σ) = objects σ params) as Hseen.
  { simpl. by rewrite upd_same, spread_into_empty. }
  rewrite Hseen in Ht.
  exists σ'. split.
  - destruct (callback ev); [done|done| |]; unfold bind, spread_params; exact Hout.
  - right. exists evs, ev. split; [done|split; [done|split; [done|]]].
    split_effect; [|exact He|exact Ht|exact Ho|exact Hc|].
    + eapply shrinks_trans; [|exact Hs]. by apply shrinks_same_emitters.
    + intros x Hxn. rewrite Hx by done. simpl. by apply upd_other.
Qed.

(** A triple for one loop body follows from what its final store
    satisfies. *)
Lemma triple_of_final {A} (c : M A) (P Q : State → Prop) :
  (∀ σ, P σ → ∃ σ', final (c σ) = Some σ' ∧ Q σ') → triple P c Q Q.
Proof.
  intros Hc σ HP. destruct (Hc σ HP) as (σ' & Hfin & HQ).
  destruct (c σ); simpl in Hfin; [by injection Hfin as ->|by injection Hfin as ->|done].
Qed.

Lemma dispatch_at_shrinks σs owner this guard hook params e :
  triple (shrinks σs) (dispatch_at user_body owner this guard hook params e)
    (shrinks σs) (shrinks σs).
Proof.
  apply triple_of_final. intros σ Hσ.
  destruct (dispatch_at_effect owner this guard hook params e σ)
    as (σ' & Hout & Heff).
  exists σ'. split; [done|].
  destruct Heff as [->|(evs & ev & _ & _ & _ & Hs & _)]; [done|].
  by eapply shrinks_trans.
Qed.

(** ** The loops of [fire] *)

Lemma fire_local_triple (I : State → Prop) A hook params :
  (∀ e, triple I (dispatch_at user_body A (ThisEmitter A) false hook params e) I I) →
  triple I (fire_local user_body A hook params) I I.
Proof.
  intros Hbody σ HI. unfold fire_local.
  destruct (events_length A hook σ) as [len|]; [|done].
  by apply (triple_for_len (fun _ => I) I _ len Hbody 0).
Qed.

Lemma fire_wired_triple (I : State → Prop) σ0 A hook params :
  (∀ σ, I σ → shrinks σ0 σ) →
  (∀ W e, W ∈ wiredEmitters (emitters σ0 A) →
     triple I (dispatch_at user_body W (ThisEmitter W) true hook params e) I I) →
  triple I (fire_wired user_body A hook params) I I.
Proof.
  intros Hs Hbody σ HI. unfold fire_wired.
  assert (∀ σ1, I σ1 → wiredEmitters (emitters σ1 A) = wiredEmitters (emitters σ0 A))
    as Hwired by (intros σ1 H1; apply (Hs σ1 H1 A)).
  rewrite (Hwired σ HI).
  apply (triple_for_dyn I I (wired_length A) _ (length (wiredEmitters (emitters σ0 A))));
    [| | |lia|lia|done].
  - intros w σ1 HI1. unfold fire_wired_at. rewrite (Hwired σ1 HI1).
    destruct (wiredEmitters (emitters σ0 A) !! w) as [W|] eqn:HW; [|done].
    pose proof (list_elem_of_lookup_2 _ _ _ HW) as HinW.
    destruct (events_length W hook σ1) as [len|] eqn:Hlen; [|done].
    assert (∀ e, triple (fun σ2 => I σ2 ∧ shrinks σ1 σ2)
                   (dispatch_at user_body W (ThisEmitter W) true hook params e)
                   (fun σ2 => I σ2 ∧ shrinks σ1 σ2) (fun σ2 => I σ2 ∧ shrinks σ1 σ2))
      as Hstep by (intros e; apply triple_conj; [by apply Hbody|apply dispatch_at_shrinks]).
    assert (∀ σ2, I σ2 ∧ shrinks σ1 σ2 → wiredEmitters (emitters σ2 A) !! w = Some W)
      as Hread by (intros σ2 [H2 _]; by rewrite (Hwired σ2 H2)).
    assert (triple (fun σ2 => I σ2 ∧ shrinks σ1 σ2)
              (for_dyn (S len) 0 (wired_events_length A w hook)
                 (dispatch_wired_at user_body A w true hook params))
              (fun σ2 => I σ2 ∧ shrinks σ1 σ2) (fun σ2 => I σ2 ∧ shrinks σ1 σ2)) as Hloop.
    { eapply triple_ext.
      { intros σ2 H2.
        apply (triple_for_dyn_ext (fun σ3 => I σ3 ∧ shrinks σ1 σ3)
                 (fun σ3 => I σ3 ∧ shrinks σ1 σ3) _ (events_length W hook) _
                 (dispatch_at user_body W (ThisEmitter W) true hook params));
          [| |exact Hstep|exact H2].
        - intros σ3 H3. unfold wired_events_length. by rewrite (Hread σ3 H3).
        - intros e σ3 H3. unfold dispatch_wired_at. by rewrite (Hread σ3 H3). }
      apply (triple_for_dyn _ _ _ _ len); [| | |lia|lia].
      - intros e. apply triple_conj; [by apply Hbody|apply dispatch_at_shrinks].
      - done.
      - intros σ2 n [_ H12] Hn. by eapply shrinks_events_length. }
    specialize (Hloop σ1 (conj HI1 (shrinks_refl σ1))).
    destruct (for_dyn _ _ _ _ σ1); tauto.
  - intros σ1 _ Hn. discriminate Hn.
  - intros σ1 n H1 Hn. unfold wired_length in Hn. injection Hn as <-.
    by rewrite (Hwired σ1 H1).
Qed.

(** [fire] ends, and every invariant of its loop bodies holds of the store
    it leaves. *)
Lemma fire_triple (I : State → Prop) σ0 A hook params :
  (∀ owner guard e, owner ∈ A :: wiredEmitters (emitters σ0 A) →
     triple (fun σ => I σ ∧ shrinks σ0 σ)
       (dispatch_at user_body owner (ThisEmitter owner) guard hook params e) I I) →
  I σ0 →
  ∃ σ', final (fire user_body A hook params σ0) = Some σ' ∧ I σ' ∧ shrinks σ0 σ'.
Proof.
  intros Hbody HI0.
  set (J := fun σ => I σ ∧ shrinks σ0 σ).
  assert (∀ owner guard e, owner ∈ A :: wiredEmitters (emitters σ0 A) →
            triple J (dispatch_at user_body owner (ThisEmitter owner) guard hook params e) J J)
    as HbodyJ.
  { intros owner guard e Hin.
    eapply triple_consequence;
      [apply (triple_conj _ _ _ _ _ _ _ (Hbody owner guard e Hin)
                (dispatch_at_shrinks σ0 owner (ThisEmitter owner) guard hook params e))
      |intros σ [H1 H2]; exact (conj (conj H1 H2) H2)|by intros σ|by intros σ]. }
  assert (triple J (fire user_body A hook params) J J) as Hfire.
  { unfold fire. eapply triple_bind.
    - apply fire_local_triple. intros e. apply HbodyJ. by left.
    - intros _. eapply triple_bind; [|intros _; apply triple_ret].
      apply (fire_wired_triple J σ0); [by intros σ [_ ?]|].
      intros W e HW. apply HbodyJ. by right. }
  specialize (Hfire σ0 (conj HI0 (shrinks_refl σ0))).
  destruct (fire user_body A hook params σ0) as [a σ'|σ'|]; [| |done];
    exists σ'; by destruct Hfire.
Qed.

Lemma fire_returns_this A hook params σ a σ' :
  fire user_body A hook params σ = Returned a σ' → a = A.
Proof.
  unfold fire, bind, ret. intros Hret.
  destruct (fire_local user_body A hook params σ); [|done|done].
  destruct (fire_wired user_body A hook params σ0); [|done|done].
  by injection Hret.
Qed.

(** ** Who is called *)


(** ** What each callback is handed *)

Lemma copy_inv_step σ0 params owner this guard hook e :
  params < next_obj σ0 →
  triple (copy_inv σ0 params) (dispatch_at user_body owner this guard hook params e)
    (copy_inv σ0 params) (copy_inv σ0 params).
Proof.
  intros Hp. apply triple_of_final.
  intros σ (Hnext & Hold & log & Htr & Hall & Hnd & Hndu).
  destruct (dispatch_at_effect owner this guard hook params e σ) as (σ' & Hfin & Heff).
  exists σ'. split; [done|].
  destruct Heff as [->|(evs & ev & Hseq & Hev & Hnn & _ & _ & Ht & Ho & _ & Hx)].
  { split; [done|split; [done|by exists log]]. }
  assert (∀ inv, inv ∈ log → inv_arg inv < next_obj σ) as Hlt.
  { intros inv Hin. rewrite Forall_forall in Hall. destruct (Hall inv Hin). lia. }
  split; [lia|split].
  - intros x Hx0. rewrite Hx by lia. by apply Hold.
  - eexists. split; [by rewrite Ht, Htr, <- app_assoc|]. split; [|split].
    + apply Forall_app. split.
      * eapply Forall_impl; [exact Hall|]. simpl. intros inv [? ?]. split; [lia|done].
      * eapply Forall_impl; [apply chain_log_entries|]. simpl.
        intros inv (_ & -> & -> & _). split; [lia|by apply Hold].
    + eapply NoDup_args_app; [exact Hlt|exact Hnd|]. right.
      fold (direct_calls (chain_log (callback ev) this (next_obj σ) true (objects σ params))).
      by rewrite direct_calls_chain_log.
    + eapply NoDup_args_app; [exact Hlt|exact Hndu|]. apply user_calls_chain_log.
Qed.

(** ** Loops over sequences of user functions *)

Lemma logged_refl σ : logged [] σ σ.
Proof. split; [done|by rewrite app_nil_r]. Qed.

Lemma logged_trans c1 c2 σ1 σ2 σ3 :
  logged c1 σ1 σ2 → logged c2 σ2 σ3 → logged (c1 ++ c2) σ1 σ3.
Proof.
  intros [He1 Ht1] [He2 Ht2]. split; [congruence|].
  by rewrite Ht2, Ht1, app_assoc.
Qed.

Lemma expected_app this l1 l2 :
  expected this (l1 ++ l2) = expected this l1 ++ expected this l2.
Proof. unfold expected. by rewrite filter_app, fmap_app. Qed.

Lemma expected_cons this ev l :
  expected this (ev :: l) = expected this [ev] ++ expected this l.
Proof. apply (expected_app this [ev] l). Qed.

Lemma dispatch_at_quiet owner this guard hook params e σ evs ev :
  instanceEvents (emitters σ owner) !! hook = Some evs → evs !! e = Some ev →
  quiet_event guard ev →
  ∃ σ', dispatch_at user_body owner this guard hook params e σ = Returned tt σ' ∧
        logged (expected this [ev]) σ σ'.
Proof.
  intros Hseq Hev Hq. unfold dispatch_at. rewrite Hseq, Hev.
  unfold quiet_event in Hq. unfold expected.
  destruct (callback ev) as [| |f|] eqn:Hcb; [| | |done].
  - subst guard. exists σ. split; [done|].
    rewrite filter_cons_False by (rewrite Hcb; done). apply logged_refl.
  - subst guard. exists σ. split; [done|].
    rewrite filter_cons_False by (rewrite Hcb; done). apply logged_refl.
  - eexists. split; [done|].
    rewrite filter_cons_True by (rewrite Hcb; done).
    split; [done|]. simpl. by rewrite fmap_app, Hcb.
Qed.

Lemma for_len_quiet owner this guard hook params evs n :
  ∀ e σ,
    instanceEvents (emitters σ owner) !! hook = Some evs →
    Forall (quiet_event guard) (take n (drop e evs)) → e + n ≤ length evs →
    ∃ σ', for_len n e (dispatch_at user_body owner this guard hook params) σ =
            Returned tt σ' ∧
          logged (expected this (take n (drop e evs))) σ σ'.
Proof.
  induction n as [|n IH]; intros e σ Hseq Hall Hlen.
  - exists σ. split; [done|]. rewrite take_0. apply logged_refl.
  - destruct (lookup_lt_is_Some_2 evs e) as [ev Hev]; [lia|].
    rewrite (drop_S _ _ _ Hev) in Hall |- *. simpl in Hall |- *.
    apply Forall_cons in Hall as [Hq Hall].
    destruct (dispatch_at_quiet owner this guard hook params e σ evs ev Hseq Hev Hq)
      as (σ1 & Hstep & Hlog1).
    destruct (IH (S e) σ1) as (σ2 & Hrest & Hlog2); [|done|lia|].
    { destruct Hlog1 as [-> _]. done. }
    exists σ2. split.
    + unfold bind. by rewrite Hstep.
    + rewrite expected_cons. by eapply logged_trans.
Qed.

Lemma for_dyn_quiet owner this guard hook params evs fuel :
  ∀ e σ,
    instanceEvents (emitters σ owner) !! hook = Some evs →
    Forall (quiet_event guard) (drop e evs) → e ≤ length evs → length evs < fuel + e →
    ∃ σ', for_dyn fuel e (events_length owner hook)
            (dispatch_at user_body owner this guard hook params) σ = Returned tt σ' ∧
          logged (expected this (drop e evs)) σ σ'.
Proof.
  induction fuel as [|fuel IH]; intros e σ Hseq Hall He Hlen; [lia|].
  simpl. unfold events_length. rewrite Hseq. simpl.
  destruct (Nat.ltb_spec e (length evs)) as [Hlt|Hge].
    + destruct (lookup_lt_is_Some_2 evs e) as [ev Hev]; [lia|].
      rewrite (drop_S _ _ _ Hev) in Hall |- *.
      apply Forall_cons in Hall as [Hq Hall].
      destruct (dispatch_at_quiet owner this guard hook params e σ evs ev Hseq Hev Hq)
        as (σ1 & Hstep & Hlog1).
      destruct (IH (S e) σ1) as (σ2 & Hrest & Hlog2); [|done|lia|lia|].
      { destruct Hlog1 as [-> _]. done. }
      exists σ2. split.
      * unfold bind. by rewrite Hstep.
      * rewrite expected_cons. by eapply logged_trans.
    + exists σ. split; [done|]. rewrite drop_ge by lia. apply logged_refl.
Qed.

(** The first loop of [fire] stops with a [TypeError] at the first Event of
    the emitter's own sequence that has no callback. *)
Lemma for_len_null_throws owner this hook params l1 ev l2 n :
  ∀ e σ,
    instanceEvents (emitters σ owner) !! hook = Some (l1 ++ ev :: l2) →
    Forall (quiet_event false) l1 → nullish (callback ev) = true →
    e ≤ length l1 → length l1 < e + n →
    ∃ σ', for_len n e (dispatch_at user_body owner this false hook params) σ =
            TypeError σ' ∧
          logged (expected this (drop e l1)) σ σ'.
Proof.
  induction n as [|n IH]; intros e σ Hseq Hall Hnull He Hn; [lia|].
  simpl. unfold bind.
  destruct (decide (e = length l1)) as [->|Hne].
  - unfold dispatch_at. rewrite Hseq, list_lookup_middle by done.
    exists σ. split; [by destruct (callback ev)|].
    rewrite drop_ge by lia. apply logged_refl.
  - destruct (lookup_lt_is_Some_2 l1 e) as [x Hx]; [lia|].
    assert ((l1 ++ ev :: l2) !! e = Some x) as Hx' by (rewrite lookup_app_l by lia; done).
    assert (quiet_event false x) as Hq.
    { rewrite Forall_forall in Hall. apply Hall. by eapply list_elem_of_lookup_2. }
    destruct (dispatch_at_quiet owner this false hook params e σ _ x Hseq Hx' Hq)
      as (σ1 & Hstep & Hlog1).
    rewrite Hstep.
    destruct (IH (S e) σ1) as (σ2 & Hrest & Hlog2); [|done|done|lia|lia|].
    { destruct Hlog1 as [-> _]. done. }
    exists σ2. split; [done|].
    rewrite (drop_S _ _ _ Hx), expected_cons. by eapply logged_trans.
Qed.

Lemma dispatch_at_quiet_keeps owner this guard hook params evs σ e :
  instanceEvents (emitters σ owner) !! hook = Some evs →
  Forall (quiet_event guard) evs →
  triple (fun σ' => emitters σ' = emitters σ)
    (dispatch_at user_body owner this guard hook params e)
    (fun σ' => emitters σ' = emitters σ) (fun _ => True).
Proof.
  intros Hseq Hall σ1 Hem.
  destruct (evs !! e) as [ev|] eqn:Hev.
  - assert (quiet_event guard ev) as Hq.
    { rewrite Forall_forall in Hall. apply Hall. by eapply list_elem_of_lookup_2. }
    destruct (dispatch_at_quiet owner this guard hook params e σ1 evs ev)
      as (σ2 & -> & Hem2 & _); [by rewrite Hem|done|done|].
    congruence.
  - unfold dispatch_at. by rewrite Hem, Hseq, Hev.
Qed.

(** The loop of [fire] over the sequence of one wired emitter, on a
    sequence of user functions and missing callbacks. *)
Lemma for_dyn_wired_quiet A w W guard hook params evs σ :
  wiredEmitters (emitters σ A) !! w = Some W →
  instanceEvents (emitters σ W) !! hook = Some evs →
  Forall (quiet_event guard) evs →
  ∃ σ', for_dyn (S (length evs)) 0 (wired_events_length A w hook)
          (dispatch_wired_at user_body A w guard hook params) σ = Returned tt σ' ∧
        logged (expected (ThisEmitter W) evs) σ σ'.
Proof.
  intros HW Hseq Hall.
  rewrite (triple_for_dyn_ext (fun σ' => emitters σ' = emitters σ) (fun _ => True)
             _ (events_length W hook) _
             (dispatch_at user_body W (ThisEmitter W) guard hook params)); [| | | |done].
  - destruct (for_dyn_quiet W (ThisEmitter W) guard hook params evs (S (length evs)) 0 σ)
      as (σ' & Hrun & Hlog); [done|done|lia|lia|].
    exists σ'. by rewrite drop_0 in Hlog.
  - intros σ1 Hem. unfold wired_events_length. by rewrite Hem, HW.
  - intros e σ1 Hem. unfold dispatch_wired_at. by rewrite Hem, HW.
  - intros e. by eapply dispatch_at_quiet_keeps.
Qed.

Lemma events_at_same σ σ' r hook :
  emitters σ' = emitters σ → events_at σ' r hook = events_at σ r hook.
Proof. intros Heq. unfold events_at. by rewrite Heq. Qed.

Lemma wired_calls_same σ σ' hook ws :
  emitters σ' = emitters σ → wired_calls σ' hook ws = wired_calls σ hook ws.
Proof.
  intros Heq. unfold wired_calls. f_equal. apply list_fmap_ext.
  intros _ W _. by rewrite (events_at_same σ σ').
Qed.

Lemma fire_wired_quiet A hook params wired fuel :
  inherited hook = None →
  ∀ w σ,
    wiredEmitters (emitters σ A) = wired →
    (∀ W, W ∈ drop w wired → Forall (quiet_event true) (events_at σ W hook)) →
    w ≤ length wired → length wired < fuel + w →
    ∃ σ', for_dyn fuel w (wired_length A) (fire_wired_at user_body A hook params) σ =
            Returned tt σ' ∧
          logged (wired_calls σ hook (drop w wired)) σ σ'.
Proof.
  intros Hname.
  induction fuel as [|fuel IH]; intros w σ Hwired Hall Hw Hfuel; [lia|].
  simpl. unfold wired_length. rewrite Hwired.
  destruct (Nat.ltb_spec w (length wired)) as [Hlt|Hge].
  - destruct (lookup_lt_is_Some_2 wired w) as [W HW]; [lia|].
    rewrite (drop_S _ _ _ HW) in Hall |- *.
    assert (∃ σ1, fire_wired_at user_body A hook params w σ = Returned tt σ1 ∧
                  logged (expected (ThisEmitter W) (events_at σ W hook)) σ σ1)
      as (σ1 & Hstep & Hlog1).
    { unfold fire_wired_at. rewrite Hwired, HW.
      specialize (Hall W (list_elem_of_here _ _)). unfold events_at in Hall |- *.
      destruct (instanceEvents (emitters σ W) !! hook) as [evs|] eqn:Hseq; simpl in *.
      - rewrite (events_length_own σ W hook evs Hseq).
        apply (for_dyn_wired_quiet A w W true hook params evs σ); [by rewrite Hwired|done|done].
      - rewrite (events_length_none σ W hook Hseq Hname).
        exists σ. split; [done|apply logged_refl]. }
    pose proof Hlog1 as [Hem1 _].
    destruct (IH (S w) σ1) as (σ2 & Hrest & Hlog2); [by rewrite Hem1| |lia|lia|].
    { intros W' HW'. rewrite (events_at_same σ σ1) by done.
      apply Hall. by right. }
    exists σ2. split; [unfold bind; by rewrite Hstep|].
    rewrite (wired_calls_same σ σ1) in Hlog2 by done.
    change (wired_calls σ hook (W :: drop (S w) wired))
      with (expected (ThisEmitter W) (events_at σ W hook) ++
            wired_calls σ hook (drop (S w) wired)).
    by eapply logged_trans.
  - exists σ. split; [done|]. rewrite drop_ge by lia. apply logged_refl.
Qed.

(** The first loop of [fire] over a sequence of user functions. *)
Lemma fire_local_quiet A hook params σ :
  inherited hook = None →
  Forall (quiet_event false) (events_at σ A hook) →
  ∃ σ', fire_local user_body A hook params σ = Returned tt σ' ∧
        logged (expected (ThisEmitter A) (events_at σ A hook)) σ σ'.
Proof.
  intros Hname Hown. unfold fire_local. unfold events_at in Hown |- *.
  destruct (instanceEvents (emitters σ A) !! hook) as [evs|] eqn:Hseq; simpl in *.
  - rewrite (events_length_own σ A hook evs Hseq).
    destruct (for_len_quiet A (ThisEmitter A) false hook params evs (length evs) 0 σ)
      as (σ1 & Hrun & Hlog); [done|by rewrite drop_0, firstn_all|lia|].
    rewrite drop_0, firstn_all in Hlog. eauto.
  - rewrite (events_length_none σ A hook Hseq Hname).
    exists σ. split; [done|apply logged_refl].
Qed.

(** When every callback [fire] can reach is a user function (or, on a
    wired emitter, missing), and the hook name is not a member of
    [Object.prototype], [fire] returns and has called exactly the
    callbacks of the emitter, in order, then those of each wired emitter,
    in wiring order. *)
Lemma fire_quiet A hook params σ :
  inherited hook = None →
  Forall (quiet_event false) (events_at σ A hook) →
  (∀ W, W ∈ wiredEmitters (emitters σ A) → Forall (quiet_event true) (events_at σ W hook)) →
  ∃ σ', fire user_body A hook params σ = Returned A σ' ∧
        logged (expected (ThisEmitter A) (events_at σ A hook) ++
                wired_calls σ hook (wiredEmitters (emitters σ A))) σ σ'.
Proof.
  intros Hname Hown Hwired.
  destruct (fire_local_quiet A hook params σ Hname Hown) as (σ1 & Hlocal & Hlog1).
  pose proof Hlog1 as [Hem1 _].
  destruct (fire_wired_quiet A hook params (wiredEmitters (emitters σ A))
              (S (length (wiredEmitters (emitters σ A)))) Hname 0 σ1)
    as (σ2 & Hw & Hlog2); [by rewrite Hem1| |lia|lia|].
  { intros W HW. rewrite (events_at_same σ σ1) by done. by apply Hwired. }
  exists σ2. split.
  - unfold fire, bind, ret. rewrite Hlocal. unfold fire_wired. rewrite Hem1. by rewrite Hw.
  - rewrite drop_0, (wired_calls_same σ σ1) in Hlog2 by done.
    by eapply logged_trans.
Qed.

Lemma fire_null_throws A hook params σ l1 ev l2 :
  instanceEvents (emitters σ A) !! hook = Some (l1 ++ ev :: l2) →
  Forall (quiet_event false) l1 → nullish (callback ev) = true →
  ∃ σ', fire user_body A hook params σ = TypeError σ' ∧
        logged (expected (ThisEmitter A) l1) σ σ'.
Proof.
  intros Hseq Hall Hnull.
  destruct (for_len_null_throws A (ThisEmitter A) hook params l1 ev l2
              (length (l1 ++ ev :: l2)) 0 σ Hseq Hall Hnull)
    as (σ' & Hrun & Hlog); [lia|rewrite length_app; simpl; lia|].
  exists σ'. split; [|by rewrite drop_0 in Hlog].
  unfold fire, bind, fire_local. by rewrite (events_length_own σ A hook _ Hseq), Hrun.
Qed.

(** ** Dispatch order *)


(** ** A one-time callback among user functions *)








(** ** The dispatch theorems *)


(** C8: every call made during [fire(hook, params)] gets an argument
    object that did not exist before the call to [fire], that is not
    [params], and whose contents on entry are those of [params], whatever
    the callbacks called before wrote to their own arguments; no two calls
    made by the loops of [fire] share their argument object, and no two
    calls of user functions do (a one-time wrapper hands its own argument
    on to the one function it wraps); [params] itself is left as it
    was. *)
Theorem fire_copies_params_per_call (σ : State) (A : EmitterRef) (hook : string)
    (params : ObjRef) :
  params < next_obj σ →
  ∃ σ' log,
    final (fire user_body A hook params σ) = Some σ' ∧
    trace σ' = trace σ ++ log ∧
    Forall (fun inv => next_obj σ ≤ inv_arg inv ∧ inv_arg inv ≠ params ∧
                       inv_seen inv = objects σ params) log ∧
    NoDup (inv_arg <$> direct_calls log) ∧
    NoDup (inv_arg <$> user_calls log) ∧
    objects σ' params = objects σ params.
Proof.
  intros Hp.
  destruct (fire_triple (copy_inv σ params) σ A hook params)
    as (σ' & Hfin & (Hnext & Hold & log & Htr & Hall & Hnd & Hndu) & _).
  { intros owner guard e _. eapply triple_consequence;
      [by apply copy_inv_step|by intros ? [? _]|done|done]. }
  { split; [done|split; [done|]]. exists []. rewrite app_nil_r.
    repeat split; constructor. }
  exists σ', log.
  split; [done|split; [done|split; [|split; [done|split; [done|by apply Hold]]]]].
  eapply Forall_impl; [exact Hall|]. simpl. intros inv [? ?]. repeat split; [lia|lia|done].
Qed.

(** X20: under a hook name that is not a member of [Object.prototype], on
    an emitter with no wired emitter and no sequence under the hook,
    [fire] returns that emitter and leaves the whole store as it was: no
    emitter changed and nothing was added to the trace.  Called without
    [params] it only allocates the default [{}]. *)
Theorem fire_unregistered_unwired_is_noop (σ : State) (e : EmitterRef) (hook : string)
    (params : ObjRef) :
  inherited hook = None →
  wiredEmitters (emitters σ e) = [] →
  instanceEvents (emitters σ e) !! hook = None →
  fire user_body e hook params σ = Returned e σ ∧
  ∃ σ', fire_default user_body e hook σ = Returned e σ' ∧
        emitters σ' = emitters σ ∧ trace σ' = trace σ.
Proof.
  intros Hname Hw Hseq.
  assert (∀ p σ1, emitters σ1 = emitters σ →
            fire user_body e hook p σ1 = Returned e σ1) as Hnoop.
  { intros p σ1 Hem. unfold fire, bind, fire_local, fire_wired.
    rewrite events_length_none by (by rewrite ?Hem). simpl.
    unfold wired_length. by rewrite !Hem, !Hw. }
  split; [by apply Hnoop|].
  unfold fire_default. eexists. split; [by apply Hnoop|done].
Qed.

(** C10: in the loop over the wired emitters an Event whose callback is
    [null] or [undefined] is passed over, the store untouched, and, the
    other callbacks in reach being user functions under a hook name that
    is not a member of [Object.prototype], [fire] goes on to return after
    calling the callbacks there are; in the loop over the emitter's own
    sequence the first Event without a callback makes [fire] throw a
    [TypeError], after the calls for the Events before it. *)
Theorem fire_guards_wired_callbacks_only (σ : State) (A : EmitterRef) (hook : string)
    (params : ObjRef) :
  (∀ W e evs ev,
     instanceEvents (emitters σ W) !! hook = Some evs → evs !! e = Some ev →
     nullish (callback ev) = true →
     dispatch_at user_body W (ThisEmitter W) true hook params e σ = Returned tt σ ∧
     dispatch_at user_body W (ThisEmitter W) false hook params e σ = TypeError σ) ∧
  (inherited hook = None →
   Forall (quiet_event false) (events_at σ A hook) →
   (∀ W, W ∈ wiredEmitters (emitters σ A) →
      Forall (quiet_event true) (events_at σ W hook)) →
   ∃ σ', fire user_body A hook params σ = Returned A σ' ∧
         logged (expected (ThisEmitter A) (events_at σ A hook) ++
                 wired_calls σ hook (wiredEmitters (emitters σ A))) σ σ') ∧
  (∀ l1 ev l2,
     instanceEvents (emitters σ A) !! hook = Some (l1 ++ ev :: l2) →
     Forall (quiet_event false) l1 → nullish (callback ev) = true →
     ∃ σ', fire user_body A hook params σ = TypeError σ' ∧
           logged (expected (ThisEmitter A) l1) σ σ').
Proof.
  split; [|split].
  - intros W e evs ev Hseq Hev Hnull. unfold dispatch_at. rewrite Hseq, Hev.
    by destruct (callback ev).
  - apply fire_quiet.
  - apply fire_null_throws.
Qed.


End DispatchFacts.

(** ** The theorems on concrete stores *)



(** C8 on [wiring_scene], where both listeners write to their argument:
    each saw [{ n: 5 }], in an object of its own. *)
Lemma fire_copies_params_per_call_witness :
  ∃ σ' log,
    final (fire stamp 0 "x" 0 wiring_scene) = Some σ' ∧
    trace σ' = trace wiring_scene ++ log ∧
    Forall (fun inv => inv_arg inv ≠ 0 ∧ inv_seen inv = {["n" := VNum 5]}) log ∧
    NoDup (inv_arg <$> direct_calls log) ∧
    objects σ' 0 = {["n" := VNum 5]}.
Proof.
  destruct (fire_copies_params_per_call stamp wiring_scene 0 "x" 0)
    as (σ' & log & Hfin & Htr & Hall & Hnd & _ & Hparams); [vm_compute; lia|].
  exists σ', log. split; [exact Hfin|split; [exact Htr|split; [|split; [exact Hnd|]]]].
  - eapply Forall_impl; [exact Hall|]. simpl. intros inv (_ & Hne & Hseen).
    split; [exact Hne|]. rewrite Hseen. by vm_compute.
  - rewrite Hparams. by vm_compute.
Defined.

(** X20 on a store where nothing was registered or wired. *)
Lemma fire_unregistered_unwired_is_noop_witness :
  fire stamp 5 "x" 0 init = Returned 5 init.
Proof.
  apply (fire_unregistered_unwired_is_noop stamp init 5 "x" 0); by vm_compute.
Defined.

(** C10 on [null_scene]: fired from [e0], the Event without callback of
    the wired [e1] is passed over; fired on [e1] itself, it throws after
    the first listener. *)
Lemma fire_guards_wired_callbacks_only_witness :
  (∃ σ', fire stamp 0 "x" 0 null_scene = Returned 0 σ' ∧
         logged [(ThisEmitter 1, CbUser 1); (ThisEmitter 1, CbUser 2)] null_scene σ') ∧
  (∃ σ', fire stamp 1 "x" 0 null_scene = TypeError σ' ∧
         logged [(ThisEmitter 1, CbUser 1)] null_scene σ').
Proof.
  split.
  - destruct (fire_guards_wired_callbacks_only stamp null_scene 0 "x" 0)
      as (_ & Hwired & _).
    apply Hwired.
    + by vm_compute.
    + vm_compute. constructor.
    + intros W HW. vm_compute in HW. apply list_elem_of_singleton in HW. subst W.
      vm_compute. repeat constructor.
  - destruct (fire_guards_wired_callbacks_only stamp null_scene 1 "x" 0)
      as (_ & _ & Hlocal).
    apply (Hlocal [mkEvent "x" (CbUser 1) 1 ∅] (mkEvent "x" CbNull 1 ∅)
             [mkEvent "x" (CbUser 2) 1 ∅]).
    + by vm_compute.
    + vm_compute. repeat constructor.
    + reflexivity.
Defined.


(** ** The repository's tests *)

Lemma test_fire_count : calls_of (CbUser 1) test_fire = 1.
Proof. by vm_compute. Qed.

Lemma test_on_count : calls_of (CbUser 1) test_on = 2.
Proof. by vm_compute. Qed.

Lemma test_once_count : calls_of (CbUser 1) test_once = 1.
Proof. by vm_compute. Qed.

Lemma test_off_count : calls_of (CbUser 1) test_off = 1.
Proof. by vm_compute. Qed.

(** ** Where the code departs from the claims *)

(** C3, the failing input: on [once_queue] the callback [f7] was registered
    with [once] behind three other one-time registrations.  Firing 'x'
    twice on [e0], which [e1] is wired to, returns both times and never
    calls [f7]: each one-time callback that runs takes itself out of the
    array the loop is indexing, so the Event after it is stepped over.
    Firing twice on [e1] itself never calls [f7] either, and both calls
    end in a [TypeError], the index running past the shortened array. *)
Theorem once_behind_three_onces_never_called :
  let σ1 := after (fire stamp 0 "x" 0) once_queue in
  let σ2 := after (fire stamp 0 "x" 0) σ1 in
  (∃ σ, fire stamp 0 "x" 0 once_queue = Returned 0 σ) ∧
  (∃ σ, fire stamp 0 "x" 0 σ1 = Returned 0 σ) ∧
  calls_of (CbUser 7) σ2 = 0 ∧
  callback <$> events_at σ2 1 "x" = [CbOneTime 3 "x" (CbUser 7)] ∧
  let τ1 := after (fire stamp 1 "x" 0) once_queue in
  let τ2 := after (fire stamp 1 "x" 0) τ1 in
  (∃ σ, fire stamp 1 "x" 0 once_queue = TypeError σ) ∧
  (∃ σ, fire stamp 1 "x" 0 τ1 = TypeError σ) ∧
  calls_of (CbUser 7) τ2 = 0.
Proof.
  vm_compute. repeat split; try reflexivity; eexists; reflexivity.
Qed.

(** C2, the failing inputs.  With one listener on [e0], the static [Fire]
    calls it with the class as [this], where [e0.fire] calls it with [e0].
    With a one-time listener, [e0.fire] returns and the listener is gone,
    where [Fire] throws (the class has no [off]) and leaves it registered.
    In the second variant, [Fire] on a hook nothing is registered under
    throws, where [e0.fire] returns with the store untouched. *)
Theorem static_Fire_differs_from_fire :
  who <$> trace (after (Fire stamp "x" 0 0) one_listener) = [(ThisClass, CbUser 1)] ∧
  who <$> trace (after (Fire2 stamp "x" 0 0) one_listener) = [(ThisClass, CbUser 1)] ∧
  who <$> trace (after (fire stamp 0 "x" 0) one_listener) = [(ThisEmitter 0, CbUser 1)] ∧
  (∃ σ, fire stamp 0 "x" 0 one_once = Returned 0 σ ∧ events_at σ 0 "x" = []) ∧
  (∃ σ, Fire stamp "x" 0 0 one_once = TypeError σ ∧ length (events_at σ 0 "x") = 1) ∧
  fire stamp 0 "y" 0 one_listener = Returned 0 one_listener ∧
  Fire stamp "y" 0 0 one_listener = Returned tt one_listener ∧
  Fire2 stamp "y" 0 0 one_listener = TypeError one_listener.
Proof.
  vm_compute. repeat split; try reflexivity; eexists; split; reflexivity.
Qed.

(** C5, the failing input: on [once_then_listeners] the emitter [e0] has a
    one-time listener followed by the listener [f2], and is wired to [e1],
    which listens with [f3].  [e0.fire('x')] calls the one-time listener
    and nothing else: the wrapper takes its Event out of the array the
    first loop is indexing, the index runs past the shortened array, and
    the [TypeError] ends [fire] before the loop over the wired emitters.
    Neither [f2], registered on [e0], nor [f3], registered on an emitter of
    [e0.wiredEmitters], is called. *)
Theorem fire_after_once_skips_listeners :
  callback <$> events_at once_then_listeners 0 "x" =
    [CbOneTime 0 "x" (CbUser 1); CbUser 2] ∧
  callback <$> events_at once_then_listeners 1 "x" = [CbUser 3] ∧
  wiredEmitters (emitters once_then_listeners 0) = [1] ∧
  ∃ σ, fire stamp 0 "x" 0 once_then_listeners = TypeError σ ∧
       who <$> trace σ =
         [(ThisEmitter 0, CbOneTime 0 "x" (CbUser 1)); (ThisEmitter 0, CbUser 1)] ∧
       calls_of (CbUser 2) σ = 0 ∧ calls_of (CbUser 3) σ = 0.
Proof.
  vm_compute. repeat split; try reflexivity. eexists. repeat split; reflexivity.
Qed.

(** C6, the failing input: on [once_first_of_three] the sequence under 'x'
    is a one-time listener for [f1], then [f2], then [f3].  [fire('x')]
    calls [f1] and [f3] and throws: [f2], registered before [f3] and
    still in the sequence afterwards, is not called, so the callbacks of
    the sequence are not invoked in registration order. *)
Theorem once_breaks_dispatch_order :
  callback <$> events_at once_first_of_three 0 "x" =
    [CbOneTime 0 "x" (CbUser 1); CbUser 2; CbUser 3] ∧
  ∃ σ, fire stamp 0 "x" 0 once_first_of_three = TypeError σ ∧
       who <$> trace σ =
         [(ThisEmitter 0, CbOneTime 0 "x" (CbUser 1)); (ThisEmitter 0, CbUser 1);
          (ThisEmitter 0, CbUser 3)] ∧
       calls_of (CbUser 2) σ = 0 ∧
       callback <$> events_at σ 0 "x" = [CbUser 2; CbUser 3].
Proof.
  vm_compute. split; [reflexivity|]. eexists. repeat split; reflexivity.
Qed.

(** C9, the failing input: a new emitter has no wired emitter and no
    sequence under 'constructor', and [fire('constructor')] does not
    return it: the guard of the first loop finds [Object], which the
    object literal inherits from [Object.prototype], reads its [length],
    1, and the first iteration reads [callback] from an element that is
    not there.  Under a name that is nowhere, [fire] is the no-op. *)
Theorem fire_throws_on_inherited_name :
  wiredEmitters (emitters init 0) = [] ∧
  instanceEvents (emitters init 0) !! "constructor" = None ∧
  fire stamp 0 "constructor" 0 init = TypeError init ∧
  fire stamp 0 "x" 0 init = Returned 0 init.
Proof. by vm_compute. Qed.

(** * Further properties of the emitter *)

(** ** [fire] does not read [classEvents] *)

Lemma class_blind_ret {A} (a : A) : class_blind (ret a).
Proof. intros σ1 σ2 HR. by split. Qed.

Lemma class_blind_throw {A} : class_blind (@throw A).
Proof. intros σ1 σ2 HR. exact HR. Qed.

Lemma class_blind_bind {A B} (c : M A) (k : A → M B) :
  class_blind c → (∀ a, class_blind (k a)) → class_blind (bind c k).
Proof.
  intros Hc Hk σ1 σ2 HR. unfold bind. specialize (Hc σ1 σ2 HR).
  destruct (c σ1) as [a1 τ1|τ1|], (c σ2) as [a2 τ2|τ2|]; simpl in Hc; try done.
  destruct Hc as [-> Hτ]. by apply Hk.
Qed.

Lemma class_blind_off r hook cb : class_blind (off r hook cb).
Proof.
  intros σ1 σ2 HR. pose proof HR as (Hem & Ho & Hn & Hc & Ht). unfold off.
  destruct (Hem r) as [Hie Hw]. rewrite Hie.
  destruct (instanceEvents (emitters σ2 r) !! hook) as [evs|];
    [|destruct (inherited hook); [exact HR|by split]].
  destruct (find_callback cb evs) as [ev|]; [|by split].
  split; [done|]. split; [|done].
  intros r'. simpl. unfold upd. destruct (Nat.eqb r' r); simpl; [done|apply Hem].
Qed.

Lemma class_blind_for_len body n :
  (∀ e, class_blind (body e)) → ∀ e, class_blind (for_len n e body).
Proof.
  intros Hbody. induction n as [|n IH]; intros e; simpl.
  - apply class_blind_ret.
  - apply class_blind_bind; [apply Hbody|]. intros _. apply IH.
Qed.

Lemma class_blind_for_dyn bound body fuel :
  (∀ σ1 σ2, same_dispatch_view σ1 σ2 → bound σ1 = bound σ2) →
  (∀ e, class_blind (body e)) → ∀ e, class_blind (for_dyn fuel e bound body).
Proof.
  intros Hbound Hbody. induction fuel as [|fuel IH]; intros e σ1 σ2 HR; [done|].
  simpl. rewrite (Hbound σ1 σ2 HR).
  destruct (bound σ2) as [n|]; [|exact HR].
  destruct (e <? n); [|by split].
  apply class_blind_bind; [apply Hbody|intros _; apply IH|exact HR].
Qed.

Lemma events_length_view σ1 σ2 r hook :
  same_dispatch_view σ1 σ2 → events_length r hook σ1 = events_length r hook σ2.
Proof. intros HR. unfold events_length. by rewrite (proj1 (proj1 HR r)). Qed.

Section FurtherProperties.

Variable user_body : nat → Obj → Obj.

Lemma class_blind_call_callback cb this arg direct :
  class_blind (call_callback user_body cb this arg direct).
Proof.
  revert direct. induction cb as [| |f|id nm inner IH]; intros direct; simpl.
  - apply class_blind_throw.
  - apply class_blind_throw.
  - apply class_blind_bind; [|intros _].
    + intros σ1 σ2 (Hem & Ho & Hn & Hc & Ht). split; [done|].
      split; [done|]. simpl. by rewrite Ho, Ht.
    + intros σ1 σ2 (Hem & Ho & Hn & Hc & Ht). split; [done|].
      split; [done|]. simpl. by rewrite Ho.
  - apply class_blind_bind; [|intros _; apply class_blind_bind; [apply IH|intros _]].
    + intros σ1 σ2 (Hem & Ho & Hn & Hc & Ht). split; [done|].
      split; [done|]. simpl. by rewrite Ho, Ht.
    + destruct this as [r|]; [|apply class_blind_throw].
      apply class_blind_bind; [apply class_blind_off|intros _; apply class_blind_ret].
Qed.

Lemma class_blind_dispatch_at owner this guard hook params e :
  class_blind (dispatch_at user_body owner this guard hook params e).
Proof.
  intros σ1 σ2 HR. pose proof HR as (Hem & Ho & Hn & Hc & Ht). unfold dispatch_at.
  rewrite (proj1 (Hem owner)).
  destruct (instanceEvents (emitters σ2 owner) !! hook) as [evs|]; [|exact HR].
  destruct (evs !! e) as [ev|]; [|exact HR].
  assert (class_blind (do arg <- spread_params params;
                       call_callback user_body (callback ev) this arg true)) as Hcall.
  { apply class_blind_bind; [|intros arg; apply class_blind_call_callback].
    intros τ1 τ2 (Hem' & Ho' & Hn' & Hc' & Ht'). split; [done|].
    split; [done|]. simpl. by rewrite Ho', Hn'. }
  destruct (callback ev);
    [destruct guard; [by split|exact HR]|destruct guard; [by split|exact HR]
    |by apply Hcall|by apply Hcall].
Qed.

Lemma class_blind_dispatch_wired_at this w guard hook params e :
  class_blind (dispatch_wired_at user_body this w guard hook params e).
Proof.
  intros σ1 σ2 HR. unfold dispatch_wired_at. rewrite (proj2 (proj1 HR this)).
  destruct (wiredEmitters (emitters σ2 this) !! w); [|exact HR].
  by apply class_blind_dispatch_at.
Qed.

Lemma class_blind_fire this hook params : class_blind (fire user_body this hook params).
Proof.
  unfold fire. apply class_blind_bind; [|intros _; apply class_blind_bind;
                                         [|intros _; apply class_blind_ret]].
  - intros σ1 σ2 HR. unfold fire_local. rewrite (events_length_view σ1 σ2 this hook HR).
    destruct (events_length this hook σ2) as [len|]; [|by split].
    apply class_blind_for_len; [|exact HR]. intros e. apply class_blind_dispatch_at.
  - intros σ1 σ2 HR. unfold fire_wired. rewrite (proj2 (proj1 HR this)).
    apply class_blind_for_dyn; [| |exact HR].
    + intros τ1 τ2 HR'. unfold wired_length. by rewrite (proj2 (proj1 HR' this)).
    + intros w τ1 τ2 HR'. unfold fire_wired_at. rewrite (proj2 (proj1 HR' this)).
      destruct (wiredEmitters (emitters τ2 this) !! w) as [W|]; [|exact HR'].
      rewrite (events_length_view τ1 τ2 W hook HR').
      destruct (events_length W hook τ2) as [len|]; [|by split].
      apply class_blind_for_dyn; [| |exact HR'].
      * intros υ1 υ2 HR''. unfold wired_events_length.
        rewrite (proj2 (proj1 HR'' this)).
        destruct (wiredEmitters (emitters υ2 this) !! w) as [W'|]; [|done].
        by apply events_length_view.
      * intros e. apply class_blind_dispatch_wired_at.
Qed.

Lemma same_dispatch_view_set_classEvents r ce σ :
  same_dispatch_view (set_classEvents r ce σ) σ.
Proof.
  split; [|done]. intros r'. simpl. unfold upd.
  destruct (Nat.eqb_spec r' r) as [->|Hne]; done.
Qed.

(** X1: whatever the class-scoped collections hold, [fire] ends the same
    way, with the same trace, the same objects and the same instance
    sequences and wires: it never reads [classEvents].  In particular a
    class-scoped registration attempted through the static [On], whether
    it registers or throws, changes nothing to what a later [fire]
    does. *)
Theorem fire_never_reads_classEvents (σ : State) (A r : EmitterRef) (hook : string)
    (params : ObjRef) :
  (∀ ce, same_outcome (fire user_body A hook params (set_classEvents r ce σ))
                      (fire user_body A hook params σ)) ∧
  (∀ h cb, ∃ σc, final (On h cb r true σ) = Some σc ∧
                 same_outcome (fire user_body A hook params σc)
                              (fire user_body A hook params σ)).
Proof.
  split.
  - intros ce. apply class_blind_fire, same_dispatch_view_set_classEvents.
  - intros h cb. unfold On, bind, registerEvent, ret.
    destruct (push_event _ _) as [ce|]; eexists; (split; [reflexivity|]).
    + apply class_blind_fire, same_dispatch_view_set_classEvents.
    + by apply class_blind_fire.
Qed.

(** ** Registration, wiring and dispatch together *)


Lemma quiet_event_guarded ev : quiet_event false ev → quiet_event true ev.
Proof. unfold quiet_event. by destruct (callback ev). Qed.





(** X6: under a hook name that is not a member of [Object.prototype],
    when no listener of the sequence has the callback, [on] followed by
    [off] with the same callback leaves every sequence of the emitter as
    it was; the hook stays registered, holding that sequence (empty if
    there was none).  When the callback was registered before, [off]
    takes the earlier registration out, not the one [on] just added. *)
Theorem on_then_off_round_trip (σ : State) (e : EmitterRef) (hook : string)
    (cb : Callback) :
  inherited hook = None →
  ∃ σ1 σ2,
    on e hook cb σ = Returned e σ1 ∧ off e hook cb σ1 = Returned e σ2 ∧
    trace σ2 = trace σ ∧
    (∀ r, r ≠ e → emitters σ2 r = emitters σ r) ∧
    classEvents (emitters σ2 e) = classEvents (emitters σ e) ∧
    wiredEmitters (emitters σ2 e) = wiredEmitters (emitters σ e) ∧
    (Forall (fun x => callback x ≠ cb) (events_at σ e hook) →
       (∀ h, events_at σ2 e h = events_at σ e h) ∧
       instanceEvents (emitters σ2 e) !! hook = Some (events_at σ e hook)) ∧
    (∀ l1 ev l2,
       events_at σ e hook = l1 ++ ev :: l2 → callback ev = cb →
       Forall (fun x => callback x ≠ cb) l1 →
       events_at σ2 e hook = l1 ++ l2 ++ [mkEvent hook cb e ∅]).
Proof.
  intros Hname.
  set (new := mkEvent hook cb e ∅).
  set (σ1 := set_instanceEvents e (pushed new (instanceEvents (emitters σ e))) σ).
  assert (instanceEvents (emitters σ1 e) !! hook = Some (events_at σ e hook ++ [new])) as Hseq.
  { unfold σ1. simpl. rewrite upd_same. simpl. rewrite pushed_lookup. simpl.
    by rewrite decide_True. }
  assert (∀ h, h ≠ hook → instanceEvents (emitters σ1 e) !! h =
                          instanceEvents (emitters σ e) !! h) as Hother.
  { intros h Hh. unfold σ1. simpl. rewrite upd_same. simpl. rewrite pushed_lookup.
    simpl. by rewrite decide_False. }
  destruct (first_with_callback cb (events_at σ e hook))
    as [Hall|(l1 & ev & l2 & Hsplit & Hev & Hl1)].
  - exists σ1. eexists.
    split; [by apply on_unfold|].
    split.
    { apply (off_removes σ1 e hook cb (events_at σ e hook) new []);
        [exact Hseq|reflexivity|exact Hall]. }
    simpl. rewrite !upd_same. simpl. rewrite app_nil_r.
    split; [done|split; [|split; [done|split; [done|split]]]].
    + intros r Hr. by rewrite !upd_other.
    + intros _. split; [|by rewrite lookup_insert_eq].
      intros h. unfold events_at at 1. simpl. rewrite upd_same. simpl.
      destruct (decide (hook = h)) as [<-|Hh]; [by rewrite lookup_insert_eq|].
      rewrite lookup_insert_ne by done. unfold events_at.
      rewrite <- (Hother h) by done. unfold σ1. simpl. by rewrite upd_same.
    + intros k1 x k2 Hk Hx _. exfalso. rewrite Forall_forall in Hall.
      apply (Hall x); [|done]. rewrite Hk. apply elem_of_app. right. by left.
  - exists σ1. eexists.
    split; [by apply on_unfold|].
    split.
    { apply (off_removes σ1 e hook cb l1 ev (l2 ++ [new]));
        [by rewrite Hseq, Hsplit, <- app_assoc|exact Hev|exact Hl1]. }
    simpl. rewrite !upd_same. simpl.
    split; [done|split; [|split; [done|split; [done|split]]]].
    + intros r Hr. by rewrite !upd_other.
    + intros Hall. exfalso. rewrite Forall_forall in Hall.
      apply (Hall ev); [|done]. rewrite Hsplit. apply elem_of_app. right. by left.
    + intros k1 x k2 Hk Hx Hk1. unfold events_at at 1. simpl. rewrite upd_same. simpl.
      rewrite lookup_insert_eq. simpl.
      rewrite Hsplit in Hk.
      assert (length l1 = length k1) as Hlen.
      { destruct (Nat.lt_total (length l1) (length k1)) as [Hlt|[Heql|Hlt]]; [|done|].
        - exfalso. rewrite Forall_forall in Hk1. apply (Hk1 ev); [|done].
          apply list_elem_of_lookup. exists (length l1).
          rewrite <- (lookup_app_l k1 (x :: k2)) by done.
          rewrite <- Hk. by rewrite list_lookup_middle.
        - exfalso. rewrite Forall_forall in Hl1. apply (Hl1 x); [|done].
          apply list_elem_of_lookup. exists (length k1).
          rewrite <- (lookup_app_l l1 (ev :: l2)) by done.
          rewrite Hk. by rewrite list_lookup_middle. }
      apply app_inj_1 in Hk as [-> [= -> ->]]; done.
Qed.

Lemma cb_not_own_wrapper cb : ∀ id h, cb ≠ CbOneTime id h cb.
Proof.
  induction cb as [| |f|id' h' inner IH]; intros id h; [done|done|done|].
  intros [= _ _ Heq]. by apply (IH id' h').
Qed.

(** X7: under a hook name that is not a member of [Object.prototype],
    [off(hook, cb)] does not cancel [once(hook, cb)]: the Event that
    [once] registered holds the wrapper, not [cb], so unless [cb] is
    registered in its own right the call changes nothing.  [off] with the
    wrapper itself does cancel it and gives the sequences back as they
    were before [once]. *)
Theorem off_with_original_keeps_once (σ : State) (e : EmitterRef) (hook : string)
    (cb : Callback) :
  inherited hook = None →
  Forall (fun x => callback x ≠ cb) (events_at σ e hook) →
  Forall (fun x => callback x ≠ CbOneTime (next_closure σ) hook cb) (events_at σ e hook) →
  ∃ σ1 σ2,
    once e hook cb σ = Returned e σ1 ∧
    events_at σ1 e hook =
      events_at σ e hook ++ [mkEvent hook (CbOneTime (next_closure σ) hook cb) e ∅] ∧
    off e hook cb σ1 = Returned e σ1 ∧
    off e hook (CbOneTime (next_closure σ) hook cb) σ1 = Returned e σ2 ∧
    ∀ h, events_at σ2 e h = events_at σ e h.
Proof.
  intros Hname Hcb Hw.
  set (w := CbOneTime (next_closure σ) hook cb).
  set (new := mkEvent hook w e ∅).
  set (σ0 := mkState (emitters σ) (objects σ) (next_obj σ) (S (next_closure σ)) (trace σ)).
  set (σ1 := set_instanceEvents e (pushed new (instanceEvents (emitters σ e))) σ0).
  assert (instanceEvents (emitters σ1 e) !! hook = Some (events_at σ e hook ++ [new])) as Hseq.
  { unfold σ1. simpl. rewrite upd_same. simpl. rewrite pushed_lookup. simpl.
    by rewrite decide_True. }
  exists σ1. eexists. split; [by apply once_unfold|].
  split; [unfold events_at at 1; by rewrite Hseq|].
  split.
  { apply off_noop. right. eexists. split; [exact Hseq|].
    apply Forall_app. split; [done|]. repeat constructor. simpl.
    intros Heq. by apply (cb_not_own_wrapper cb (next_closure σ) hook). }
  split.
  { apply (off_removes σ1 e hook w (events_at σ e hook) new []);
      [exact Hseq|reflexivity|exact Hw]. }
  intros h. unfold events_at at 1. simpl. rewrite !upd_same. simpl. rewrite app_nil_r.
  destruct (decide (hook = h)) as [<-|Hh]; [by rewrite lookup_insert_eq|].
  rewrite lookup_insert_ne, pushed_lookup by done. simpl.
  by rewrite decide_False.
Qed.


(** X9: called without [params], [fire] hands every callback an empty
    object of its own, allocated after the default [{}]. *)
Theorem fire_default_hands_empty_objects (σ : State) (A : EmitterRef) (hook : string) :
  ∃ σ' log,
    final (fire_default user_body A hook σ) = Some σ' ∧
    trace σ' = trace σ ++ log ∧
    Forall (fun inv => inv_seen inv = ∅ ∧ next_obj σ < inv_arg inv) log ∧
    NoDup (inv_arg <$> direct_calls log) ∧
    (∀ x, x < next_obj σ → objects σ' x = objects σ x).
Proof.
  unfold fire_default.
  set (σ0 := mkState (emitters σ) (upd (next_obj σ) ∅ (objects σ)) (S (next_obj σ))
               (next_closure σ) (trace σ)).
  destruct (fire_triple user_body (copy_inv σ0 (next_obj σ)) σ0 A hook (next_obj σ))
    as (σ' & Hfin & (Hnext & Hold & log & Htr & Hall & Hnd & _) & _).
  { intros owner guard e _. eapply triple_consequence;
      [apply (copy_inv_step user_body σ0 (next_obj σ)); unfold σ0; simpl; lia
      |by intros ? [? _]|done|done]. }
  { split; [done|split; [done|]]. exists []. rewrite app_nil_r.
    repeat split; constructor. }
  unfold σ0 in *. simpl in *.
  exists σ', log. split; [done|split; [done|split; [|split; [done|]]]].
  - eapply Forall_impl; [exact Hall|]. simpl. intros inv [Hrange Hseen].
    split; [|lia]. rewrite Hseen. apply upd_same.
  - intros x Hx. rewrite Hold by lia. apply upd_other. lia.
Qed.

(** X10: once the last listener under a hook is gone (the sequence is
    there but empty) and no emitter is wired, [fire] is a no-op that
    returns its emitter, whatever the hook name. *)
Theorem fire_on_emptied_hook_is_noop (σ : State) (e : EmitterRef) (hook : string)
    (params : ObjRef) :
  instanceEvents (emitters σ e) !! hook = Some [] →
  wiredEmitters (emitters σ e) = [] →
  fire user_body e hook params σ = Returned e σ.
Proof.
  intros Hseq Hw. unfold fire, bind, fire_local, fire_wired.
  rewrite (events_length_own σ e hook [] Hseq). simpl.
  unfold wired_length. by rewrite !Hw.
Qed.

(** ** The static [Fire] *)









(** ** From the decorators to the instances *)









(** X16: the [events] getter of an instance reads the class collection
    first: for a class collection as registration builds it, under a hook
    the class registered, it returns the Events of the class as they were
    decorated, and shows neither the registrations the constructor
    replayed onto the instance nor a listener the instance adds with [on]
    afterwards, although [fire] dispatches over those. *)
Theorem events_getter_hides_instance_listeners (σ : State) (this : EmitterRef)
    (ce : Events) (hook : string) (cb : Callback) (evs : list Event) :
  own_names ce →
  ce !! hook = Some evs →
  ∃ σ1 σ2,
    constructor this (mkPre None (Some ce)) σ = Returned this σ1 ∧
    on this hook cb σ1 = Returned this σ2 ∧
    events_at σ2 this hook = (replayed this hook <$> evs) ++ [mkEvent hook cb this ∅] ∧
    events (emitters σ2 this) !! hook = Some evs.
Proof.
  intros Hown Hce.
  destruct (constructor_fresh this ce σ Hown) as (σ1 & Hnew & Hlook & _ & Hcls & _ & _).
  set (σ2 := set_instanceEvents this
               (pushed (mkEvent hook cb this ∅) (instanceEvents (emitters σ1 this))) σ1).
  exists σ1, σ2. split; [done|split; [apply on_unfold; by apply (Hown hook evs)|split]].
  - unfold σ2. rewrite (events_at_push σ1 σ1) by done. simpl.
    rewrite decide_True by done. f_equal.
    apply replay_seq_events_at. by rewrite Hlook, Hce.
  - unfold events, spread_into. rewrite lookup_union.
    unfold σ2. simpl. rewrite upd_same. simpl. rewrite Hcls, Hce.
    by destruct ((_ ∪ ∅) !! hook).
Qed.

(** ** Hook names found on [Object.prototype] *)

(** X21: under a name that is a member of [Object.prototype] and not yet a
    hook of the emitter, registration and removal throw and register
    nothing: [on] and [off] leave the store as it was, [once] has only
    allocated its wrapper; [fire] throws as well, the store untouched,
    when the member has a positive [length], as [constructor] and
    [hasOwnProperty] have. *)
Theorem inherited_names_throw (σ : State) (e : EmitterRef) (hook : string)
    (cb : Callback) (params : ObjRef) (len : option nat) :
  instanceEvents (emitters σ e) !! hook = None →
  inherited hook = Some len →
  on e hook cb σ = TypeError σ ∧
  off e hook cb σ = TypeError σ ∧
  once e hook cb σ =
    TypeError (mkState (emitters σ) (objects σ) (next_obj σ) (S (next_closure σ)) (trace σ)) ∧
  (0 < member_length len → fire user_body e hook params σ = TypeError σ).
Proof.
  intros Hnone Hname. split; [|split; [|split]].
  - apply on_inherited; [done|by exists len].
  - apply off_inherited; [done|by exists len].
  - unfold once, Once, bind, new_closure, registerEvent, ret. simpl.
    rewrite push_event_inherited; [done|done|by exists len].
  - intros Hlen. unfold fire, bind, fire_local, events_length.
    rewrite Hnone, Hname. simpl.
    destruct (member_length len) as [|n]; [lia|].
    simpl. unfold bind, dispatch_at. by rewrite Hnone.
Qed.

End FurtherProperties.

(** ** The further properties on the scenes *)

Ltac names_own := apply map_Forall_to_list; vm_compute; repeat constructor.



(** X6 on [three_listeners], with a function that is not registered. *)
Lemma on_then_off_round_trip_witness :
  ∃ σ1 σ2,
    on 0 "x" (CbUser 5) three_listeners = Returned 0 σ1 ∧
    off 0 "x" (CbUser 5) σ1 = Returned 0 σ2 ∧
    ∀ h, events_at σ2 0 h = events_at three_listeners 0 h.
Proof.
  destruct (on_then_off_round_trip three_listeners 0 "x" (CbUser 5))
    as (σ1 & σ2 & Hon & Hoff & _ & _ & _ & _ & Hback & _); [by vm_compute|].
  exists σ1, σ2. split; [exact Hon|split; [exact Hoff|]].
  apply Hback. vm_compute. repeat (constructor; [discriminate|]). constructor.
Defined.

(** X7 on [one_listener]: [e0.once('x', f2)] is not undone by
    [e0.off('x', f2)], and is undone by [off] with the wrapper. *)
Lemma off_with_original_keeps_once_witness :
  ∃ σ1 σ2,
    once 0 "x" (CbUser 2) one_listener = Returned 0 σ1 ∧
    off 0 "x" (CbUser 2) σ1 = Returned 0 σ1 ∧
    off 0 "x" (CbOneTime 0 "x" (CbUser 2)) σ1 = Returned 0 σ2 ∧
    ∀ h, events_at σ2 0 h = events_at one_listener 0 h.
Proof.
  destruct (off_with_original_keeps_once one_listener 0 "x" (CbUser 2))
    as (σ1 & σ2 & Honce & _ & Hoff & Hoffw & Hback).
  { by vm_compute. }
  { vm_compute. repeat (constructor; [discriminate|]). constructor. }
  { vm_compute. repeat (constructor; [discriminate|]). constructor. }
  exists σ1, σ2. split; [exact Honce|split; [exact Hoff|split; [exact Hoffw|exact Hback]]].
Defined.


(** X10 on [emptied_hook]. *)
Lemma fire_on_emptied_hook_is_noop_witness :
  instanceEvents (emitters emptied_hook 0) !! "x" = Some [] ∧
  fire stamp 0 "x" 0 emptied_hook = Returned 0 emptied_hook.
Proof.
  split; [by vm_compute|].
  apply (fire_on_emptied_hook_is_noop stamp emptied_hook 0 "x" 0); by vm_compute.
Defined.






(** X16 on [decorated_class]: an instance that adds [f3] under 'x' still
    reads the one decorated method from [events]. *)
Lemma events_getter_hides_instance_listeners_witness :
  ∃ σ1 σ2,
    constructor 0 (mkPre None (Some decorated_class)) init = Returned 0 σ1 ∧
    on 0 "x" (CbUser 3) σ1 = Returned 0 σ2 ∧
    callback <$> events_at σ2 0 "x" = [CbUser 1; CbUser 3] ∧
    events (emitters σ2 0) !! "x" = Some [mkEvent "x" (CbUser 1) 9 ∅].
Proof.
  destruct (events_getter_hides_instance_listeners init 0 decorated_class "x" (CbUser 3)
              [mkEvent "x" (CbUser 1) 9 ∅])
    as (σ1 & σ2 & Hnew & Hon & Hat & Hget); [names_own|by vm_compute|].
  exists σ1, σ2. split; [exact Hnew|split; [exact Hon|split; [|exact Hget]]].
  by rewrite Hat.
Defined.

(** X21 on a new emitter, under 'hasOwnProperty'. *)
Lemma inherited_names_throw_witness :
  on 0 "hasOwnProperty" (CbUser 1) init = TypeError init ∧
  off 0 "hasOwnProperty" (CbUser 1) init = TypeError init ∧
  fire stamp 0 "hasOwnProperty" 0 init = TypeError init.
Proof.
  destruct (inherited_names_throw stamp init 0 "hasOwnProperty" (CbUser 1) 0 (Some 1))
    as (Hon & Hoff & _ & Hfire); [by vm_compute|by vm_compute|].
  split; [exact Hon|split; [exact Hoff|]]. apply Hfire. vm_compute. lia.
Defined.
